(** * Magisk build orchestrator ([build.py]): a shallow embedding

    The script drives two external build systems, relocates their
    artifacts and generates headers.  It is modelled here as a program
    in a state-and-exception monad over a small operating-system model:
    a file system, a working directory, the shared [args] object of the
    script, and a trace of the calls made to effectful primitives. *)

From stdpp Require Import base gmap sets list strings pretty.
From Stdlib Require Import ZArith Ascii String.

Local Open Scope string_scope.
Local Open Scope nat_scope.
Local Open Scope list_scope.

#[local] Set Warnings "-clear-no-such-hyp".

(** ** Paths and files *)

(** A path is the tuple of its components ([Path.parts]); an absolute
    path starts with the component ["/"]. *)
Abbreviation path := (list string).

Definition is_abs (p : path) : bool :=
  match p with
  | c :: _ => bool_decide (c = "/")
  | [] => false
  end.

(** One component applied to an already resolved location. *)
Definition path_step (acc : path) (c : string) : path :=
  if bool_decide (c = "..") then removelast acc else acc ++ [c].

(** What the operating system makes of [p] when the working directory
    is [cwd]. *)
Definition resolve (cwd p : path) : path :=
  if is_abs p then fold_left path_step (tail p) ["/"]
  else fold_left path_step p cwd.

(** [str(path)] *)
Definition path_str (p : path) : string :=
  match p with
  | c :: q => if bool_decide (c = "/") then "/" +:+ String.concat "/" q
              else String.concat "/" p
  | [] => "."
  end.

(** A regular file: its content and the read-only attribute.  On a
    platform without such an attribute every file has [f_ro = false].
    Directories are implicit: a directory exists when a file lies
    under it. *)
Record file := File { f_data : string; f_ro : bool }.

Abbreviation FS := (gmap (list string) file).

(** ** Exceptions, external commands, trace *)

Inductive exn :=
| FileNotFoundError
| PermissionError
| IsADirectoryError
| AttributeError
| AssertionError
| KeyError
| SystemExit (code : Z).

Inductive cmd :=
| Argv (argv : list string)   (* subprocess.run(cmd) *)
| Shell (line : string).      (* subprocess.run(cmd, shell=True) *)

(** The calls to effectful primitives, in the order they are made. *)
Inductive event :=
| EExec (c : cmd) (rc : Z)          (* an external process ran and returned [rc] *)
| EMove (src dst : path)            (* shutil.move was called *)
| EHeader (f : path) (text : string)(* write_if_diff was called *)
| EWrite (f : path) (text : string) (* a file was opened for writing *)
| ERemove (p : path)                (* os.remove was called *)
| ERmtree (p : path).               (* shutil.rmtree was called *)

(** ** The script's global objects *)

(** [args.target] starts as the list argparse collected and is
    overwritten by a set (or by the default list) during resolution. *)
Inductive targets :=
| TList (l : list string)
| TSet (s : gset string).

Definition truthy (t : targets) : bool :=
  match t with
  | TList l => negb (bool_decide (l = []))
  | TSet s => negb (bool_decide (s = ∅))
  end.

(** [set(t)] *)
Definition to_set (t : targets) : gset string :=
  match t with
  | TList l => list_to_set l
  | TSet s => s
  end.

(** [x in t] *)
Definition contains (x : string) (t : targets) : bool :=
  match t with
  | TList l => bool_decide (x ∈ l)
  | TSet s => bool_decide (x ∈ s)
  end.

(** The argparse namespace; [target] is absent for sub-commands that do
    not declare it. *)
Record Args := mkArgs {
  target : option targets;
  release : bool;
  verbose : bool
}.

(** The [config] dictionary once [load_config] has run. *)
Record Config := mkConfig {
  version : string;
  versionCode : Z;
  ondkVersion : option string
}.

Inductive lzma_check := CHECK_NONE | CHECK_CRC32 | CHECK_CRC64 | CHECK_SHA256.

(** What the script takes from its host and its libraries. *)
Record Env := mkEnv {
  is_windows : bool;
  cpu_count : N;
  sdk_path : path;
  (** the directory the script is started in *)
  start_dir : path;
  config : Config;
  (** an external process: its exit status and what it leaves on disk *)
  subprocess_run : cmd → path → FS → Z * FS;
  (** the order in which a set is iterated *)
  set_iter : gset string → list string;
  (** [lzma.compress(data, preset=, check=)] *)
  lzma_compress : string → nat → lzma_check → string
}.

Record World := mkWorld {
  fs : FS;
  cwd : path;
  args : Args;
  trace : list event
}.

Definition set_fs (f : FS) (w : World) : World :=
  mkWorld f (cwd w) (args w) (trace w).
Definition set_cwd (c : path) (w : World) : World :=
  mkWorld (fs w) c (args w) (trace w).
Definition set_args (a : Args) (w : World) : World :=
  mkWorld (fs w) (cwd w) a (trace w).
Definition emit (e : event) (w : World) : World :=
  mkWorld (fs w) (cwd w) (args w) (trace w ++ [e]).

(** ** The monad *)

Inductive result (A : Type) :=
| Ok (a : A)
| Raise (e : exn).
Arguments Ok {A} a.
Arguments Raise {A} e.

Definition M (A : Type) : Type := World → result A * World.

Definition ret {A} (a : A) : M A := λ w, (Ok a, w).
Definition raise {A} (e : exn) : M A := λ w, (Raise e, w).
Definition bind {A B} (m : M A) (k : A → M B) : M B :=
  λ w, match m w with
       | (Ok a, w') => k a w'
       | (Raise e, w') => (Raise e, w')
       end.
Definition get : M World := λ w, (Ok w, w).
Definition modify (f : World → World) : M unit := λ w, (Ok tt, f w).

(** [try: body except <those accepted by handles>: pass] *)
Definition try_pass (handles : exn → bool) (body : M unit) : M unit :=
  λ w, match body w with
       | (Ok a, w') => (Ok a, w')
       | (Raise e, w') => if handles e then (Ok tt, w') else (Raise e, w')
       end.

Notation "'do' x <- m ; k" := (bind m (λ x, k))
  (at level 10, x name, m at level 100, k at level 200).
Notation "m ;; k" := (bind m (λ _, k))
  (at level 100, k at level 200, right associativity).

(** [for x in l: body x] *)
Fixpoint for_each {A} (l : list A) (body : A → M unit) : M unit :=
  match l with
  | [] => ret tt
  | x :: l' => body x ;; for_each l' body
  end.

Definition when (b : bool) (m : M unit) : M unit := if b then m else ret tt.

(** ** Operating-system and library primitives *)

Definition os_chdir (p : path) : M unit :=
  modify (λ w, set_cwd (resolve (cwd w) p) w).

(** [Path.exists()] *)
Definition path_exists (p : path) : M bool :=
  λ w, (Ok (bool_decide (is_Some (fs w !! resolve (cwd w) p))), w).

(** [open(p).read()] *)
Definition read_file (p : path) : M string :=
  λ w, match fs w !! resolve (cwd w) p with
       | Some f => (Ok (f_data f), w)
       | None => (Raise FileNotFoundError, w)
       end.

(** What a write in text mode stores: on Windows every line feed goes
    out as carriage return and line feed; elsewhere the text is stored
    as it is. *)
Fixpoint crlf (s : string) : string :=
  match s with
  | EmptyString => EmptyString
  | String c s' =>
      if Ascii.eqb c "010" then String "013" (String "010" (crlf s'))
      else String c (crlf s')
  end.

Definition text_bytes (windows : bool) (text : string) : string :=
  if windows then crlf text else text.

(** [open(p, "w").write(text)]: refused on a read-only file. *)
Definition write_file (windows : bool) (p : path) (text : string) : M unit :=
  λ w, let q := resolve (cwd w) p in
       let w := emit (EWrite q text) w in
       let stored := File (text_bytes windows text) false in
       match fs w !! q with
       | Some f => if f_ro f then (Raise PermissionError, w)
                   else (Ok tt, set_fs (<[q := stored]> (fs w)) w)
       | None => (Ok tt, set_fs (<[q := stored]> (fs w)) w)
       end.

Fixpoint strip_prefix (p k : path) : option path :=
  match p, k with
  | [], _ => Some k
  | c :: p', d :: k' => if bool_decide (c = d) then strip_prefix p' k' else None
  | _ :: _, [] => None
  end.

(** The files at or below a resolved location, as paths relative to it.
    A directory listing never contains the entry [..]. *)
Definition under (root : path) (m : FS) : list path :=
  omap (λ k, match strip_prefix root k with
             | Some rel => if bool_decide (".." ∈ rel) then None else Some rel
             | None => None
             end)
       (elements (dom m)).

(** A directory is at a resolved location when a file lies below it. *)
Definition is_dir (q : path) (m : FS) : bool :=
  existsb (λ rel, negb (bool_decide (rel = []))) (under q m).

(** [os.unlink] on a resolved path, without a trace entry: a directory
    is refused, with [IsADirectoryError] as Linux does (other systems
    answer [PermissionError]). *)
Definition unlink_at (q : path) : M unit :=
  λ w, match fs w !! q with
       | None => if is_dir q (fs w) then (Raise IsADirectoryError, w)
                 else (Raise FileNotFoundError, w)
       | Some f => if f_ro f then (Raise PermissionError, w)
                   else (Ok tt, set_fs (delete q (fs w)) w)
       end.

Definition os_unlink (p : path) : M unit :=
  do w <- get; unlink_at (resolve (cwd w) p).

Definition os_remove (p : path) : M unit :=
  do w <- get;
  modify (emit (ERemove (resolve (cwd w) p)));;
  unlink_at (resolve (cwd w) p).

(** [os.chmod(p, stat.S_IWRITE)]; the attributes of directories are
    not modelled. *)
Definition os_chmod_write (p : path) : M unit :=
  λ w, let q := resolve (cwd w) p in
       match fs w !! q with
       | None => if is_dir q (fs w) then (Ok tt, w) else (Raise FileNotFoundError, w)
       | Some f => (Ok tt, set_fs (<[q := File (f_data f) false]> (fs w)) w)
       end.

(** [shutil.move] of a file: a missing source raises; a read-only file
    at the destination cannot be replaced; otherwise the file changes
    name and whatever was at the destination is overwritten.
    Directories being implicit, the directory of the destination is
    taken to exist, as [os_chdir] and [write_file] take theirs; a run in
    which the script has not made it (line 290 is not reached when cargo
    has nothing to build) is not described by this definition. *)
Definition shutil_move (src dst : path) : M unit :=
  λ w, let s := resolve (cwd w) src in
       let d := resolve (cwd w) dst in
       let w := emit (EMove s d) w in
       match fs w !! s with
       | None => (Raise FileNotFoundError, w)
       | Some f =>
           match fs w !! d with
           | Some (File _ true) => (Raise PermissionError, w)
           | _ => (Ok tt, set_fs (<[d := f]> (delete s (fs w))) w)
           end
       end.

(** [shutil.rmtree(p, ignore_errors=False, onerror=h)]: a path that
    cannot be examined is reported to the handler; every file found is
    unlinked, and a failing unlink is reported to the handler. *)
Definition unlink_or_report (onerror : path → M unit) (fullname : path) : M unit :=
  λ w, match os_unlink fullname w with
       | (Ok a, w') => (Ok a, w')
       | (Raise _, w') => onerror fullname w'
       end.

Definition shutil_rmtree (p : path) (onerror : path → M unit) : M unit :=
  do w <- get;
  modify (emit (ERmtree (resolve (cwd w) p)));;
  match under (resolve (cwd w) p) (fs w) with
  | [] => onerror p
  | victims => for_each victims (λ rel, unlink_or_report onerror (p ++ rel))
  end.

(** [try: body except: handler] *)
Definition try_except {A} (body : M A) (handler : exn → M A) : M A :=
  λ w, match body w with
       | (Ok a, w') => (Ok a, w')
       | (Raise e, w') => handler e w'
       end.

(** ** Strings *)

Definition LF : string := String "010"%char EmptyString.
Definition DQ : string := String "034"%char EmptyString.

(** [s.strip] of blanks, tabs, carriage returns and line feeds *)
Definition is_blank (c : ascii) : bool :=
  bool_decide (c = " "%char) || bool_decide (c = "009"%char) ||
  bool_decide (c = "013"%char) || bool_decide (c = "010"%char).

Fixpoint lstrip (l : list ascii) : list ascii :=
  match l with
  | c :: l' => if is_blank c then lstrip l' else l
  | [] => []
  end.

Definition strip (s : string) : string :=
  string_of_list_ascii (rev (lstrip (rev (lstrip (list_ascii_of_string s))))).

(** A file read in text mode: a carriage return, alone or followed by
    a line feed, reads as one line feed. *)
Fixpoint universal_newlines (s : string) : string :=
  match s with
  | EmptyString => EmptyString
  | String c s' =>
      if Ascii.eqb c "013" then
        match s' with
        | String "010" s'' => String "010" (universal_newlines s'')
        | _ => String "010" (universal_newlines s')
        end
      else String c (universal_newlines s')
  end.

(** [open(p, "r").read()] *)
Definition read_text (p : path) : M string :=
  do raw <- read_file p;
  ret (universal_newlines raw).

(** [f"{c:02X}"] for a byte [c] *)
Definition hex_digit (n : N) : ascii :=
  match n with
  | 0 => "0" | 1 => "1" | 2 => "2" | 3 => "3" | 4 => "4" | 5 => "5"
  | 6 => "6" | 7 => "7" | 8 => "8" | 9 => "9" | 10 => "A" | 11 => "B"
  | 12 => "C" | 13 => "D" | 14 => "E" | _ => "F"
  end%N%char.

Definition hex02X (c : ascii) : string :=
  String (hex_digit (N_of_ascii c / 16)) (String (hex_digit (N_of_ascii c mod 16)) EmptyString).

(** The recursive glob of [cleanup]: paths below [native] whose name
    matches [*-rs.*pp]; hidden names are never matched by a wildcard. *)

Definition hidden (c : string) : bool :=
  match c with
  | String "." _ => true
  | _ => false
  end.

Definition ends_with (suf s : string) : bool :=
  (String.length suf <=? String.length s)%nat &&
  String.eqb (substring (String.length s - String.length suf) (String.length suf) s) suf.

(** [fnmatch] of a name against [*-rs.*pp] *)
Fixpoint fnmatch_rs_pp (name : string) : bool :=
  (String.prefix "-rs." name && ends_with "pp" (substring 4 (String.length name - 4) name))
  || match name with
     | EmptyString => false
     | String _ rest => fnmatch_rs_pp rest
     end.

Definition rs_gen_rel (rel : path) : bool :=
  forallb (λ c, negb (hidden c)) rel &&
  match last rel with
  | Some name => fnmatch_rs_pp name
  | None => false
  end.

(** The matches, files and directories alike, as paths relative to the
    working directory [c]: every path below [native] that leads to a
    file, or to a directory above one, and satisfies [rs_gen_rel]. *)
Definition glob_found (c : path) (m : FS) : list path :=
  remove_dups
    (flat_map (λ rel, omap (λ n, if rs_gen_rel (take n rel)
                                 then Some ("native" :: take n rel) else None)
                           (seq 1 (List.length rel)))
              (under (resolve c ["native"]) m)).

Definition glob_native_rs_pp : M (list path) :=
  λ w, (Ok (glob_found (cwd w) (fs w)), w).

(** ** The script *)

Section Script.
Context (E : Env).

Definition archs : list string := ["armeabi-v7a"; "x86"; "arm64-v8a"; "x86_64"].
Definition triples : list string :=
  [ "armv7a-linux-androideabi";
    "i686-linux-android";
    "aarch64-linux-android";
    "x86_64-linux-android" ].
Definition default_targets : list string :=
  ["magisk"; "magiskinit"; "magiskboot"; "magiskpolicy"; "busybox"].
Definition support_targets : list string := default_targets ++ ["resetprop"].
Definition rust_targets : list string :=
  ["magisk"; "magiskinit"; "magiskboot"; "magiskpolicy"].

Definition EXE_EXT : string := if is_windows E then ".exe" else EmptyString.

Definition ndk_root : path := sdk_path E ++ ["ndk"].
Definition ndk_path : path := ndk_root ++ ["magisk"].
Definition ndk_build : path := ndk_path ++ ["ndk-build"].
Definition rust_bin : path := ndk_path ++ ["toolchains"; "rust"; "bin"].
Definition cargo : path := rust_bin ++ ["cargo" +:+ EXE_EXT].
(** [Path(...).resolve()], evaluated when the script is loaded. *)
Definition gradlew : path :=
  resolve (start_dir E) ["gradlew" +:+ (if is_windows E then ".bat" else EmptyString)].
Definition native_gen_path : path :=
  resolve (start_dir E) ["native"; "out"; "generated"].

(** [error]: the message goes to the terminal, which is not modelled;
    [sys.exit(1)] raises [SystemExit]. *)
Definition error {A} (msg : string) : M A := raise (SystemExit 1).

(** [vprint] and [header] only print. *)
Definition vprint (msg : string) : M unit := ret tt.
Definition header (msg : string) : M unit := ret tt.

Definition mv (source target : path) : M unit :=
  try_pass (λ _, true)
    (shutil_move source target;;
     vprint ("mv " +:+ path_str source +:+ " -> " +:+ path_str target)).

Definition only_FileNotFoundError (e : exn) : bool :=
  match e with FileNotFoundError => true | _ => false end.

Definition rm (file : path) : M unit :=
  try_pass only_FileNotFoundError
    (os_remove file;;
     vprint ("rm " +:+ path_str file)).

(** The handler ignores the function that failed and the exception. *)
Definition rm_on_error (p : path) : M unit :=
  try_pass only_FileNotFoundError
    (os_chmod_write p;;
     os_unlink p).

Definition rm_rf (p : path) : M unit :=
  vprint ("rm -rf " +:+ path_str p);;
  shutil_rmtree p rm_on_error.

(** [subprocess.run]: the process runs in the current directory; the
    exit status is returned. *)
Definition run_process (c : cmd) : M Z :=
  λ w, let '(rc, f) := subprocess_run E c (cwd w) (fs w) in
       (Ok rc, emit (EExec c rc) (set_fs f w)).

Definition execv (cmd : list string) : M Z := run_process (Argv cmd).
Definition system (cmd : string) : M Z := run_process (Shell cmd).

Definition find_jdk : M unit :=
  do rc <- run_process (Shell "javac -version");
  let no_jdk := negb (bool_decide (rc = 0%Z)) in
  if no_jdk then error "Please set Android Studio's path to environment variable ANDROID_STUDIO"
  else ret tt.

(** [args.target], an attribute of the shared namespace *)
Definition get_target : M targets :=
  do w <- get;
  match target (args w) with
  | Some t => ret t
  | None => raise AttributeError
  end.

Definition set_target (t : targets) : M unit :=
  modify (λ w, set_args (mkArgs (Some t) (release (args w)) (verbose (args w))) w).

Definition clean_support_targets : gset string :=
  {[ "native"; "cpp"; "rust"; "java" ]}.

(** Lines 499-506 of [cleanup]: the scopes to clean. *)
Definition cleanup_scopes (requested : targets) : gset string :=
  if truthy requested then
    let t := to_set requested ∩ clean_support_targets in
    if bool_decide ("native" ∈ t) then {[ "rust" ]} ∪ ({[ "cpp" ]} ∪ t) else t
  else clean_support_targets.

Definition cleanup : M unit :=
  do requested <- get_target;
  set_target (TSet (cleanup_scopes requested));;
  do t <- get_target;
  when (contains "cpp" t)
    (header "* Cleaning C++";;
     rm_rf ["native"; "libs"];;
     rm_rf ["native"; "obj"];;
     rm_rf ["native"; "out"]);;
  do t <- get_target;
  when (contains "rust" t)
    (header "* Cleaning Rust";;
     rm_rf ["native"; "src"; "target"];;
     rm ["native"; "src"; "boot"; "proto"; "mod.rs"];;
     rm ["native"; "src"; "boot"; "proto"; "update_metadata.rs"];;
     do found <- glob_native_rs_pp;
     for_each found rm);;
  do t <- get_target;
  when (contains "java" t)
    (header "* Cleaning java";;
     find_jdk;;
     execv [path_str gradlew; "app:clean"; "app:shared:clean"; "stub:clean"];;
     rm_rf ["app"; "src"; "debug"];;
     rm_rf ["app"; "src"; "release"]).

(** *** Generated headers *)

Definition xz (data : string) : string := lzma_compress E data 9 CHECK_NONE.

Definition write_if_diff (file_name : path) (text : string) : M unit :=
  do w <- get;
  modify (emit (EHeader (resolve (cwd w) file_name) text));;
  do ex <- path_exists file_name;
  do do_write <-
    (if ex then do orig <- read_text file_name; ret (negb (String.eqb orig text))
     else ret true);
  when do_write (write_file (is_windows E) file_name text).

(** The loop of [binary_dump]: [i] is the index of the next byte. *)
Fixpoint binary_dump_loop (i : nat) (bytes : list ascii) (out_str : string) : string :=
  match bytes with
  | [] => out_str
  | c :: rest =>
      let out_str := if (i mod 16 =? 0)%nat then out_str +:+ LF else out_str in
      binary_dump_loop (S i) rest (out_str +:+ "0x" +:+ hex02X c +:+ ",")
  end.

Definition binary_dump (src : string) (var_name : string) (compressor : string → string)
  : string :=
  let out_str := "constexpr unsigned char " +:+ var_name +:+ "[] = {" in
  let out_str := binary_dump_loop 0 (list_ascii_of_string (compressor src)) out_str in
  out_str +:+ LF +:+ "};" +:+ LF.

Definition dump_bin_header : M unit :=
  for_each archs (λ arch,
    let preload := ["native"; "out"; arch; "libinit-ld.so"] in
    do src <- read_file preload;
    let text := binary_dump src "init_ld_xz" xz in
    write_if_diff (native_gen_path ++ [arch +:+ "_binaries.h"]) text).

(** The dedented template of [dump_flag_header]. *)
Definition flag_template : string :=
  "#pragma once" +:+ LF +:+
  "#define quote(s)            #s" +:+ LF +:+
  "#define str(s)              quote(s)" +:+ LF +:+
  "#define MAGISK_FULL_VER     MAGISK_VERSION " +:+ DQ +:+ "(" +:+ DQ +:+
    " str(MAGISK_VER_CODE) " +:+ DQ +:+ ")" +:+ DQ +:+ LF +:+
  "#define NAME_WITH_VER(name) str(name) " +:+ DQ +:+ " " +:+ DQ +:+
    " MAGISK_FULL_VER" +:+ LF.

Definition flag_text (cfg : Config) (is_release : bool) : string :=
  let flag_txt := flag_template in
  let flag_txt := flag_txt +:+
    ("#define MAGISK_VERSION      " +:+ DQ +:+ version cfg +:+ DQ +:+ LF) in
  let flag_txt := flag_txt +:+
    ("#define MAGISK_VER_CODE     " +:+ pretty (versionCode cfg) +:+ LF) in
  let flag_txt := flag_txt +:+
    ("#define MAGISK_DEBUG        " +:+ (if is_release then "0" else "1") +:+ LF) in
  flag_txt.

Definition dump_flag_header : M unit :=
  do w <- get;
  let flag_txt := flag_text (config E) (release (args w)) in
  write_if_diff (native_gen_path ++ ["flags.h"]) flag_txt.

(** *** The two build families *)

Definition clean_elf : M unit :=
  do elf_cleaner <-
    (if is_windows E then ret ["tools"; "elf-cleaner.exe"]
     else
       let elf_cleaner := ["native"; "out"; "elf-cleaner"] in
       do ex <- path_exists elf_cleaner;
       (if negb ex then
          execv [ "gcc";
                  "-DPACKAGE_NAME=" +:+ DQ +:+ "termux-elf-cleaner" +:+ DQ;
                  "-DPACKAGE_VERSION=" +:+ DQ +:+ "2.1.1" +:+ DQ;
                  "-DCOPYRIGHT=" +:+ DQ +:+ "Copyright (C) 2022 Termux." +:+ DQ;
                  "tools/termux-elf-cleaner/elf-cleaner.cpp";
                  "tools/termux-elf-cleaner/arghandling.c";
                  "-o";
                  path_str elf_cleaner ];; ret tt
        else ret tt);;
       ret elf_cleaner);
  let args := [path_str elf_cleaner; "--api-level"; "23"] in
  let args := args ++
    flat_map (λ arch, map (λ bin, path_str ["native"; "out"; arch; bin])
                          ["magisk"; "magiskpolicy"]) archs in
  execv args;; ret tt.

Definition run_ndk_build (flags : string) : M unit :=
  os_chdir ["native"];;
  let flags := "NDK_PROJECT_PATH=. NDK_APPLICATION_MK=src/Application.mk " +:+ flags in
  do rc <- system (path_str ndk_build +:+ " " +:+ flags +:+ " -j" +:+ pretty (cpu_count E));
  (if negb (bool_decide (rc = 0%Z)) then error "Build binary failed!" else ret tt);;
  os_chdir [".."];;
  for_each archs (λ arch,
    for_each (support_targets ++ ["libinit-ld.so"]) (λ tgt,
      let source := ["native"; "libs"; arch; tgt] in
      let target := ["native"; "out"; arch; tgt] in
      mv source target)).

Definition run_cargo (cmds : list string) (triple : string) : M Z :=
  execv (path_str cargo :: cmds).

(** Lines 258-260 of [run_cargo_build]: what cargo is asked to build. *)
Definition cargo_targets (t : targets) : gset string :=
  let targets := to_set t ∩ list_to_set rust_targets in
  if contains "resetprop" t then {[ "magisk" ]} ∪ targets else targets.

Definition run_cargo_build : M unit :=
  let native_out := [".."; "out"] in
  do t <- get_target;
  do w <- get;
  let targets := cargo_targets t in
  if bool_decide (size targets = 0) then ret tt
  else
    let cmds := ["build"; "-p"; EmptyString] in
    let rust_out := if release (args w) then "release" else "debug" in
    let cmds := if release (args w) then cmds ++ ["-r"] else cmds in
    let cmds := if negb (verbose (args w)) then cmds ++ ["-q"] else cmds in
    let cmds := cmds ++ ["--target"] in
    let cmds := cmds ++ [EmptyString] in
    for_each (zip archs triples) (λ '(arch, triple),
      let rust_triple :=
        if String.prefix "armv7" triple then "thumbv7neon-linux-androideabi" else triple in
      let cmds := <[pred (List.length cmds) := rust_triple]> cmds in
      for_each (set_iter E targets) (λ target,
        let cmds := <[2 := target]> cmds in
        do rc <- run_cargo cmds triple;
        if negb (bool_decide (rc = 0%Z)) then error "Build binary failed!" else ret tt);;
      let arch_out := native_out ++ [arch] in
      for_each (set_iter E targets) (λ tgt,
        let source := ["target"; rust_triple; rust_out; "lib" +:+ tgt +:+ ".a"] in
        let target := arch_out ++ ["lib" +:+ tgt +:+ "-rs.a"] in
        mv source target)).

(** *** The pipeline *)

(** Lines 366-371 of [build_binary]: the new value of [args.target], and
    whether the function returns at once. *)
Definition select_targets (requested : targets) : targets * bool :=
  if truthy requested then
    let t := TSet (to_set requested ∩ list_to_set support_targets) in
    (t, negb (truthy t))
  else (TList default_targets, false).

Definition verify_ndk : M unit :=
  try_except
    (do ondk_ver <- read_text (ndk_path ++ ["ONDK_VERSION"]);
     match ondkVersion (config E) with
     | None => raise KeyError
     | Some v => if String.eqb (strip ondk_ver) v then ret tt else raise AssertionError
     end)
    (λ _, error "Unmatched NDK. Please install/upgrade NDK with build.py ndk").

Definition append_if (b : bool) (flag s : string) : string :=
  if b then flag +:+ s else flag.

Definition nonempty (s : string) : bool := negb (String.eqb s EmptyString).

Definition build_binary : M unit :=
  verify_ndk;;
  do w <- get;
  (if bool_decide (target (args w) = None) then set_target (TList []) else ret tt);;
  do requested <- get_target;
  let '(t, early) := select_targets requested in
  set_target t;;
  if early then ret tt
  else
      header "* Building binaries: ";;
      os_chdir ["native"; "src"];;
      run_cargo_build;;
      os_chdir [".."; ".."];;
      dump_flag_header;;
      let flag := EmptyString in
      let clean := false in
      let flag := append_if (contains "magisk" t) flag " B_MAGISK=1" in
      let clean := contains "magisk" t || clean in
      let flag := append_if (contains "magiskpolicy" t) flag " B_POLICY=1" in
      let clean := contains "magiskpolicy" t || clean in
      let flag := append_if (contains "magiskinit" t) flag " B_PRELOAD=1" in
      let flag := append_if (contains "resetprop" t) flag " B_PROP=1" in
      when (nonempty flag) (run_ndk_build flag);;
      let flag := EmptyString in
      when (contains "magiskinit" t) dump_bin_header;;
      let flag := append_if (contains "magiskinit" t) flag " B_INIT=1" in
      let flag := append_if (contains "magiskboot" t) flag " B_BOOT=1" in
      when (nonempty flag) (run_ndk_build (flag +:+ " B_CRT0=1"));;
      when clean clean_elf;;
      when (contains "busybox" t) (run_ndk_build "B_BB=1").

End Script.

(** * Vocabulary of the properties *)

(** A computation that never assigns to [args]. *)
Definition keeps_args {A} (m : M A) : Prop := ∀ w, args (m w).2 = args w.

(** What a run is judged by: processes started and headers generated,
    whatever the exit status; moves and physical writes are left out. *)
Inductive milestone :=
| MExec (c : cmd)
| MHeader (f : path) (text : string).

Definition milestone_of (e : event) : option milestone :=
  match e with
  | EExec c _ => Some (MExec c)
  | EHeader f text => Some (MHeader f text)
  | _ => None
  end.

Definition milestones (evs : list event) : list milestone := omap milestone_of evs.

(** The files a run opened for writing. *)
Definition written (evs : list event) : list path :=
  omap (λ e, match e with EWrite f _ => Some f | _ => None end) evs.

(** The events a run added to the trace. *)
Definition added (w w' : World) : list event := drop (List.length (trace w)) (trace w').

(** A string in which a given character does not occur. *)
Definition free_of (c : ascii) (s : string) : Prop := c ∉ list_ascii_of_string s.

#[global] Instance cmd_eq_dec : EqDecision cmd.
Proof. solve_decision. Defined.
#[global] Instance milestone_eq_dec : EqDecision milestone.
Proof. solve_decision. Defined.

(** How a payload header reads: an array declaration, then rows of at
    most sixteen elements, each a two-digit upper-case hexadecimal
    literal followed by a comma. *)
Definition element (c : ascii) : string := "0x" +:+ hex02X c +:+ ",".

Fixpoint cat (l : list string) : string :=
  match l with
  | [] => EmptyString
  | s :: l' => s +:+ cat l'
  end.

Fixpoint rows_of (fuel : nat) (bytes : list ascii) : list (list ascii) :=
  match fuel with
  | 0 => []
  | S n =>
      match bytes with
      | [] => []
      | _ => take 16 bytes :: rows_of n (drop 16 bytes)
      end
  end.

Definition rows (bytes : list ascii) : list (list ascii) :=
  rows_of (List.length bytes) bytes.

Definition render_row (row : list ascii) : string := LF +:+ cat (map element row).

Definition payload_text (var_name : string) (bytes : list ascii) : string :=
  "constexpr unsigned char " +:+ var_name +:+ "[] = {" +:+
  cat (map render_row (rows bytes)) +:+ LF +:+ "};" +:+ LF.

(** The value of an upper-case hexadecimal digit: [0-9] are the codes 48
    to 57 and [A-F] the codes 65 to 70. *)
Definition hex_value (c : ascii) : option N :=
  let n := N_of_ascii c in
  if ((48 <=? n) && (n <=? 57))%N then Some (n - 48)%N
  else if ((65 <=? n) && (n <=? 70))%N then Some (n - 55)%N
  else None.

(** Reading the array back, as the consumer of the header does. *)
Fixpoint skip_prefix (p s : string) : option string :=
  match p with
  | EmptyString => Some s
  | String c p' =>
      match s with
      | String d s' => if Ascii.eqb c d then skip_prefix p' s' else None
      | EmptyString => None
      end
  end.

Fixpoint parse_body (s : string) : option (list ascii) :=
  match s with
  | String "0" (String "x" (String h (String l (String "," rest)))) =>
      match hex_value h, hex_value l, parse_body rest with
      | Some a, Some b, Some bytes => Some (ascii_of_N (16 * a + b) :: bytes)
      | _, _, _ => None
      end
  | String "010" rest =>
      if String.eqb rest ("};" +:+ LF) then Some [] else parse_body rest
  | _ => None
  end.

Definition parse_header (var_name text : string) : option string :=
  match skip_prefix ("constexpr unsigned char " +:+ var_name +:+ "[] = {") text with
  | Some body => string_of_list_ascii <$> parse_body body
  | None => None
  end.

(** The preload library of an architecture, the header generated from
    it, and the milestone of generating that header in world [w]. *)
Definition so_path (arch : string) : path := ["native"; "out"; arch; "libinit-ld.so"].

Definition bin_header_path (E : Env) (arch : string) : path :=
  native_gen_path E ++ [arch +:+ "_binaries.h"].

Definition so_data (w : World) (arch : string) : string :=
  match fs w !! resolve (cwd w) (so_path arch) with
  | Some f => f_data f
  | None => EmptyString
  end.

Definition bin_header_milestone (E : Env) (w : World) (arch : string) : milestone :=
  MHeader (resolve (cwd w) (bin_header_path E arch))
          (binary_dump (so_data w arch) "init_ld_xz" (xz E)).

(** One turn of the loop of [dump_bin_header]. *)
Definition bin_body (E : Env) (arch : string) : M unit :=
  do src <- read_file (so_path arch);
  write_if_diff E (bin_header_path E arch) (binary_dump src "init_ld_xz" (xz E)).

(** Why a turn of the loop can fail in world [w]. *)
Definition bin_blocked (E : Env) (w : World) (a : string) : Prop :=
  fs w !! resolve (cwd w) (so_path a) = None ∨
  ∃ d, fs w !! resolve (cwd w) (bin_header_path E a) = Some (File d true).

(** The command line of an ndk-build pass, and the moves that follow a
    pass when the working directory is [c]. *)
Definition ndk_line (E : Env) (flags : string) : string :=
  path_str (ndk_build E) +:+ " " +:+
  ("NDK_PROJECT_PATH=. NDK_APPLICATION_MK=src/Application.mk " +:+ flags) +:+
  " -j" +:+ pretty (cpu_count E).

Definition relocations (c : path) : list event :=
  flat_map (λ arch,
    map (λ tgt, EMove (resolve c ["native"; "libs"; arch; tgt])
                      (resolve c ["native"; "out"; arch; tgt]))
        ["magisk"; "magiskinit"; "magiskboot"; "magiskpolicy"; "busybox";
         "resetprop"; "libinit-ld.so"])
    archs.

(** A computation that, started in [w], passes exactly the milestones
    [ms] when it returns, in the working directory [c'] and with [args]
    as they were, and an initial segment of [ms] when it raises. *)
Definition emits {A} (m : M A) (w : World) (ms : list milestone) (c' : path) : Prop :=
  ∃ evs, trace (m w).2 = trace w ++ evs ∧
    match (m w).1 with
    | Ok _ => milestones evs = ms ∧ cwd (m w).2 = c' ∧ args (m w).2 = args w
    | Raise _ => milestones evs `prefix_of` ms
    end.

(** The arguments of one cargo invocation, and what [run_cargo_build]
    asks of cargo when the set of targets is iterated as [iter]. *)
Definition cargo_cmds (is_release is_verbose : bool) (target triple : string)
  : list string :=
  ["build"; "-p"; target] ++ (if is_release then ["-r"] else []) ++
  (if is_verbose then [] else ["-q"]) ++ ["--target"; triple].

Definition rust_triple_of (triple : string) : string :=
  if String.prefix "armv7" triple then "thumbv7neon-linux-androideabi" else triple.

Definition cargo_milestones (E : Env) (a : Args) (iter : list string) : list milestone :=
  flat_map (λ '(arch, triple),
    map (λ tgt, MExec (Argv (path_str (cargo E) ::
                               cargo_cmds (release a) (verbose a) tgt (rust_triple_of triple))))
        iter)
    (zip archs triples).

(** Whether the milestones [l1] were passed in this order within [l2]. *)
Fixpoint in_order (l1 l2 : list milestone) : bool :=
  match l1, l2 with
  | [], _ => true
  | _ :: _, [] => false
  | x :: l1', y :: l2' =>
      if bool_decide (x = y) then in_order l1' l2' else in_order l1 l2'
  end.

(** The invocation of the ELF cleaner that ends [clean_elf]. *)
Definition is_clean_elf (m : milestone) : bool :=
  match m with
  | MExec (Argv (_ :: "--api-level" :: _)) => true
  | _ => false
  end.

(** What [cleanup] would remove, seen from the directory [c]: a tree is
    clean when none of it is there, neither as a file nor as a
    directory. *)
Definition cleaned_trees : list path :=
  [ ["native"; "libs"]; ["native"; "obj"]; ["native"; "out"];
    ["native"; "src"; "target"];
    ["app"; "src"; "debug"]; ["app"; "src"; "release"] ].

Definition cleaned_files : list path :=
  [ ["native"; "src"; "boot"; "proto"; "mod.rs"];
    ["native"; "src"; "boot"; "proto"; "update_metadata.rs"] ].

Definition clean_tree (c : path) (m : FS) : Prop :=
  Forall (λ p, under (resolve c p) m = []) cleaned_trees ∧
  Forall (λ p, under (resolve c p) m = []) cleaned_files ∧
  glob_found c m = [].

(** A step of [cleanup] that has nothing to do on a clean tree seen
    from [c]: it returns, and the tree is still clean. *)
Definition quiet {A} (c : path) (m : M A) : Prop :=
  ∀ w, cwd w = c → clean_tree c (fs w) → is_Some (target (args w)) →
    ∃ a w', m w = (Ok a, w') ∧ cwd w' = c ∧ clean_tree c (fs w') ∧ args w' = args w.

(** [cleanup] after it has assigned [args.target]. *)
Definition cleanup_steps (E : Env) : M unit :=
  do t <- get_target;
  when (contains "cpp" t)
    (header "* Cleaning C++";;
     rm_rf ["native"; "libs"];;
     rm_rf ["native"; "obj"];;
     rm_rf ["native"; "out"]);;
  do t <- get_target;
  when (contains "rust" t)
    (header "* Cleaning Rust";;
     rm_rf ["native"; "src"; "target"];;
     rm ["native"; "src"; "boot"; "proto"; "mod.rs"];;
     rm ["native"; "src"; "boot"; "proto"; "update_metadata.rs"];;
     do found <- glob_native_rs_pp;
     for_each found rm);;
  do t <- get_target;
  when (contains "java" t)
    (header "* Cleaning java";;
     find_jdk E;;
     execv E [path_str (gradlew E); "app:clean"; "app:shared:clean"; "stub:clean"];;
     rm_rf ["app"; "src"; "debug"];;
     rm_rf ["app"; "src"; "release"]).

(** What [cleanup] asks for, scope by scope, when it runs in
    directory [c]: the trees and files to remove and the processes to
    start, in order.  [found] is what the glob returned, [javac] and
    [gradle] are the exit statuses of the two processes. *)
Definition cpp_plan (c : path) : list event :=
  [ ERmtree (resolve c ["native"; "libs"]);
    ERmtree (resolve c ["native"; "obj"]);
    ERmtree (resolve c ["native"; "out"]) ].

Definition rust_plan (c : path) (found : list path) : list event :=
  [ ERmtree (resolve c ["native"; "src"; "target"]);
    ERemove (resolve c ["native"; "src"; "boot"; "proto"; "mod.rs"]);
    ERemove (resolve c ["native"; "src"; "boot"; "proto"; "update_metadata.rs"]) ] ++
  map (λ p, ERemove (resolve c p)) found.

Definition java_plan (E : Env) (c : path) (javac gradle : Z) : list event :=
  [ EExec (Shell "javac -version") javac;
    EExec (Argv [path_str (gradlew E); "app:clean"; "app:shared:clean"; "stub:clean"]) gradle;
    ERmtree (resolve c ["app"; "src"; "debug"]);
    ERmtree (resolve c ["app"; "src"; "release"]) ].

Definition cleanup_plan (E : Env) (c : path) (scopes : gset string)
    (found : list path) (javac gradle : Z) : list event :=
  (if bool_decide ("cpp" ∈ scopes) then cpp_plan c else []) ++
  (if bool_decide ("rust" ∈ scopes) then rust_plan c found else []) ++
  (if bool_decide ("java" ∈ scopes) then java_plan E c javac gradle else []).

(** How [cleanup] can fail: in the rust scope on a file that cannot be
    unlinked, in the java scope when no JDK answers. *)
Definition cleanup_failure (scopes : gset string) (e : exn) : Prop :=
  ("rust" ∈ scopes ∧ (e = PermissionError ∨ e = IsADirectoryError)) ∨
  ("java" ∈ scopes ∧ e = SystemExit 1).

(** What the glob can return: paths below [native] whose name matches. *)
Definition rs_gen_path (p : path) : Prop :=
  ∃ rel, p = "native" :: rel ∧ rs_gen_rel rel = true.

(** One event list after another. *)
Definition followed_by (R1 R2 : list event → Prop) : list event → Prop :=
  λ evs, ∃ a b, evs = a ++ b ∧ R1 a ∧ R2 b.

(** A step of [cleanup] run in directory [c] with [args.target] equal
    to [T]: it stays in [c], leaves [args] alone and, when it returns,
    has added to the trace one of the event lists [R]; when it fails it
    has added the first events of one of them, and the exception is one
    of [F]. *)
Definition performs {A} (c : path) (T : targets) (m : M A)
    (R : list event → Prop) (F : exn → Prop) : Prop :=
  ∀ w, cwd w = c → target (args w) = Some T →
    ∃ got, trace (m w).2 = trace w ++ got ∧ cwd (m w).2 = c ∧ args (m w).2 = args w ∧
      match (m w).1 with
      | Ok _ => R got
      | Raise e => (∃ evs, R evs ∧ got `prefix_of` evs) ∧ F e
      end.

(** The milestones of a release build of magiskinit alone, started in
    directory [c], when the four preload libraries read hold [datas];
    [-q] is passed to cargo unless the run is verbose. *)
Definition magiskinit_release_milestones (E : Env) (c : path) (is_verbose : bool)
    (datas : list string) : list milestone :=
  let cargo_build triple :=
    MExec (Argv (path_str (cargo E) ::
                 ["build"; "-p"; "magiskinit"; "-r"] ++
                 (if is_verbose then [] else ["-q"]) ++ ["--target"; triple])) in
  [ cargo_build "thumbv7neon-linux-androideabi";
    cargo_build "i686-linux-android";
    cargo_build "aarch64-linux-android";
    cargo_build "x86_64-linux-android";
    MHeader (resolve c (native_gen_path E ++ ["flags.h"]))
      (flag_template +:+
       "#define MAGISK_VERSION      " +:+ DQ +:+ version (config E) +:+ DQ +:+ LF +:+
       "#define MAGISK_VER_CODE     " +:+ pretty (versionCode (config E)) +:+ LF +:+
       "#define MAGISK_DEBUG        0" +:+ LF);
    MExec (Shell (ndk_line E " B_PRELOAD=1")) ] ++
  zip_with (λ arch d,
      MHeader (resolve c (native_gen_path E ++ [arch +:+ "_binaries.h"]))
              (binary_dump d "init_ld_xz" (xz E)))
    archs datas ++
  [ MExec (Shell (ndk_line E " B_INIT=1 B_CRT0=1")) ].

(** A small concrete host, to run the script on. *)
Module Demo.

(** Stand-in for the LZMA pair: a two-byte magic, then the data. *)
Definition compress (data : string) (preset : nat) (check : lzma_check) : string :=
  "XZ" +:+ data.
Definition decompress (blob : string) : option string :=
  match blob with
  | String "X" (String "Z" data) => Some data
  | _ => None
  end.

(** Every process succeeds; a shell command other than the JDK probe
    is ndk-build, which leaves a preload library per architecture in
    [libs], below the directory it runs in. *)
Definition run (c : cmd) (cwd : path) (m : FS) : Z * FS :=
  match c with
  | Shell line =>
      if bool_decide (line = "javac -version") then (0%Z, m)
      else (0%Z, foldr (λ arch acc,
                    <[cwd ++ ["libs"; arch; "libinit-ld.so"] := File ("ELF-" +:+ arch) false]> acc)
                  m archs)
  | Argv _ => (0%Z, m)
  end.

Definition env : Env :=
  mkEnv false 4 ["/"; "sdk"] ["/"; "repo"] (mkConfig "v27.0" 27000 (Some "r27"))
        run elements compress.

(** The same host under Windows. *)
Definition windows_env : Env :=
  mkEnv true 4 ["/"; "sdk"] ["/"; "repo"] (mkConfig "v27.0" 27000 (Some "r27"))
        run elements compress.

(** The same host with processes that succeed and write nothing. *)
Definition idle (c : cmd) (cwd : path) (m : FS) : Z * FS := (0%Z, m).

Definition idle_env : Env :=
  mkEnv false 4 ["/"; "sdk"] ["/"; "repo"] (mkConfig "v27.0" 27000 (Some "r27"))
        idle elements compress.

Definition ondk_file : path := ["/"; "sdk"; "ndk"; "magisk"; "ONDK_VERSION"].

Definition world (requested : option targets) (is_release : bool) : World :=
  mkWorld {[ ondk_file := File ("r27" +:+ LF) false ]}
          ["/"; "repo"] (mkArgs requested is_release false) [].

End Demo.

(** * Properties *)

(** ** Running a computation *)

Lemma bind_ok {A B} (m : M A) (k : A → M B) w a w' :
  m w = (Ok a, w') → bind m k w = k a w'.
Proof. intros H. unfold bind. by rewrite H. Qed.

Lemma bind_raise {A B} (m : M A) (k : A → M B) w e w' :
  m w = (Raise e, w') → bind m k w = (Raise e, w').
Proof. intros H. unfold bind. by rewrite H. Qed.

(** ** Computations that leave [args] alone *)

Create HintDb keeps discriminated.

Lemma keeps_ret {A} (a : A) : keeps_args (ret a).
Proof. done. Qed.

Lemma keeps_raise {A} e : keeps_args (@raise A e).
Proof. done. Qed.

Lemma keeps_get : keeps_args get.
Proof. done. Qed.

Lemma keeps_bind {A B} (m : M A) (k : A → M B) :
  keeps_args m → (∀ a, keeps_args (k a)) → keeps_args (bind m k).
Proof.
  intros Hm Hk w. unfold bind. specialize (Hm w).
  destruct (m w) as [[a|e] w1]; simpl in *; [|done].
  by rewrite Hk.
Qed.

Lemma keeps_try_pass h m : keeps_args m → keeps_args (try_pass h m).
Proof.
  intros Hm w. unfold try_pass. specialize (Hm w).
  destruct (m w) as [[a|e] w1]; simpl in *; [done|]. by destruct (h e).
Qed.

Lemma keeps_for_each {A} (l : list A) body :
  (∀ x, keeps_args (body x)) → keeps_args (for_each l body).
Proof.
  intros Hb. induction l as [|x l IH]; simpl; [done|].
  apply keeps_bind; auto.
Qed.

Lemma keeps_when b m : keeps_args m → keeps_args (when b m).
Proof. by destruct b. Qed.

Lemma keeps_emit e : keeps_args (modify (emit e)).
Proof. done. Qed.

Lemma keeps_unlink_at q : keeps_args (unlink_at q).
Proof. intros w. unfold unlink_at. by repeat case_match. Qed.

Lemma keeps_os_unlink p : keeps_args (os_unlink p).
Proof. apply keeps_bind; [apply keeps_get|]. intros; apply keeps_unlink_at. Qed.

Lemma keeps_os_remove p : keeps_args (os_remove p).
Proof.
  apply keeps_bind; [apply keeps_get|]. intros.
  apply keeps_bind; [apply keeps_emit|]. intros; apply keeps_unlink_at.
Qed.

Lemma keeps_os_chmod_write p : keeps_args (os_chmod_write p).
Proof. intros w. unfold os_chmod_write. by repeat case_match. Qed.

Lemma keeps_shutil_move s d : keeps_args (shutil_move s d).
Proof. intros w. unfold shutil_move. by repeat case_match. Qed.

Lemma keeps_path_exists p : keeps_args (path_exists p).
Proof. done. Qed.

Lemma keeps_read_file p : keeps_args (read_file p).
Proof. intros w. unfold read_file. by case_match. Qed.

Lemma keeps_write_file b p t : keeps_args (write_file b p t).
Proof. intros w. unfold write_file. by repeat case_match. Qed.

Lemma keeps_os_chdir p : keeps_args (os_chdir p).
Proof. done. Qed.

Lemma keeps_glob : keeps_args glob_native_rs_pp.
Proof. done. Qed.

Lemma keeps_run_process E c : keeps_args (run_process E c).
Proof. intros w. unfold run_process. by case_match. Qed.

Lemma keeps_rm_on_error p : keeps_args (rm_on_error p).
Proof.
  apply keeps_try_pass, keeps_bind; [apply keeps_os_chmod_write|].
  intros; apply keeps_os_unlink.
Qed.

Lemma keeps_rmtree p h : (∀ q, keeps_args (h q)) → keeps_args (shutil_rmtree p h).
Proof.
  intros Hh. apply keeps_bind; [apply keeps_get|]. intros w0.
  apply keeps_bind; [apply keeps_emit|]. intros _.
  destruct (under _ _) as [|v vs]; [apply Hh|].
  apply keeps_for_each. intros x w. unfold unlink_or_report.
  pose proof (keeps_os_unlink (p ++ x) w) as Hu.
  destruct (os_unlink (p ++ x) w) as [[a|e] w1]; simpl in *; [done|].
  by rewrite Hh.
Qed.

Lemma keeps_rm_rf p : keeps_args (rm_rf p).
Proof.
  apply keeps_bind; [apply keeps_ret|]. intros _.
  apply keeps_rmtree, keeps_rm_on_error.
Qed.

Lemma keeps_rm p : keeps_args (rm p).
Proof.
  apply keeps_try_pass, keeps_bind; [apply keeps_os_remove|].
  intros; apply keeps_ret.
Qed.

Lemma keeps_mv s d : keeps_args (mv s d).
Proof.
  apply keeps_try_pass, keeps_bind; [apply keeps_shutil_move|].
  intros; apply keeps_ret.
Qed.

Lemma keeps_find_jdk E : keeps_args (find_jdk E).
Proof.
  apply keeps_bind; [apply keeps_run_process|]. intros rc.
  cbv zeta. destruct (negb _); [apply keeps_raise|apply keeps_ret].
Qed.

Lemma keeps_get_target : keeps_args get_target.
Proof.
  apply keeps_bind; [apply keeps_get|]. intros w.
  case_match; [apply keeps_ret|apply keeps_raise].
Qed.

Lemma keeps_header msg : keeps_args (header msg).
Proof. done. Qed.

Lemma keeps_vprint msg : keeps_args (vprint msg).
Proof. done. Qed.

Lemma keeps_execv E c : keeps_args (execv E c).
Proof. apply keeps_run_process. Qed.

Lemma keeps_system E c : keeps_args (system E c).
Proof. apply keeps_run_process. Qed.

#[global] Hint Resolve keeps_header keeps_vprint keeps_execv keeps_system : keeps.
#[global] Hint Resolve keeps_ret keeps_raise keeps_get keeps_try_pass
  keeps_for_each keeps_when keeps_emit keeps_unlink_at keeps_os_unlink
  keeps_os_remove keeps_os_chmod_write keeps_shutil_move keeps_path_exists
  keeps_read_file keeps_write_file keeps_os_chdir keeps_glob keeps_run_process
  keeps_rm_on_error keeps_rm_rf keeps_rm keeps_mv keeps_find_jdk
  keeps_get_target : keeps.

Ltac keeps :=
  repeat first
    [ solve [eauto with keeps]
    | apply keeps_when
    | apply keeps_for_each; intros ?
    | apply keeps_bind; [|intros ?] ].

Lemma get_target_some w t :
  target (args w) = Some t → get_target w = (Ok t, w).
Proof. intros H. unfold get_target, bind, get, ret. by rewrite H. Qed.

(** ** Target selection *)

Lemma support_targets_set :
  list_to_set support_targets =@{gset string}
  {[ "magisk"; "magiskinit"; "magiskboot"; "magiskpolicy"; "busybox"; "resetprop" ]}.
Proof. unfold support_targets, default_targets. set_solver. Qed.

Lemma truthy_list (l : list string) : l ≠ [] → truthy (TList l) = true.
Proof. by destruct l. Qed.

(** C1. An empty request resolves to the default list; any other request
    resolves to its intersection with the catalog; the resolved set is
    always inside the catalog; and when the intersection is empty
    [build_binary] returns normally, having run no process, moved,
    written or removed nothing: only [args.target] holds the empty
    set. *)
Theorem target_selection (E : Env) (w : World) (l : list string) :
  let catalog : gset string :=
    {[ "magisk"; "magiskinit"; "magiskboot"; "magiskpolicy"; "busybox"; "resetprop" ]} in
  let resolved := (select_targets (TList l)).1 in
  (l = [] →
     resolved = TList default_targets ∧
     to_set resolved =
       {[ "magisk"; "magiskinit"; "magiskboot"; "magiskpolicy"; "busybox" ]}) ∧
  (l ≠ [] → resolved = TSet (list_to_set l ∩ catalog)) ∧
  to_set resolved ⊆ catalog ∧
  (l ≠ [] → list_to_set l ∩ catalog = ∅ →
   verify_ndk E w = (Ok tt, w) → target (args w) = Some (TList l) →
   build_binary E w =
     (Ok tt, set_args (mkArgs (Some (TSet ∅)) (release (args w)) (verbose (args w))) w)).
Proof.
  cbv zeta. rewrite <- support_targets_set. split; [|split; [|split]].
  - intros ->. split; [done|]. unfold default_targets. simpl. set_solver.
  - intros Hl. unfold select_targets. by rewrite truthy_list.
  - unfold select_targets. destruct (truthy (TList l)); simpl; [set_solver|].
    unfold support_targets. set_solver.
  - intros Hl Hempty Hndk Ht. unfold build_binary.
    rewrite (bind_ok _ _ _ _ _ Hndk).
    unfold bind at 1. simpl. rewrite Ht. simpl.
    unfold bind at 1. simpl.
    rewrite (bind_ok _ _ _ _ _ (get_target_some _ _ Ht)).
    unfold select_targets. rewrite (truthy_list _ Hl). simpl to_set.
    rewrite Hempty. simpl. rewrite bool_decide_eq_true_2 by done. done.
Qed.

Lemma target_selection_witness :
  build_binary Demo.env (Demo.world (Some (TList ["bogus"])) true) =
  (Ok tt, set_args (mkArgs (Some (TSet ∅)) true false)
            (Demo.world (Some (TList ["bogus"])) true)).
Proof.
  pose proof (target_selection Demo.env (Demo.world (Some (TList ["bogus"])) true)
                ["bogus"]) as H.
  cbv zeta in H. destruct H as (_ & _ & _ & H).
  apply H; [done|by vm_compute|by vm_compute|reflexivity].
Defined.

(** ** Strings *)

Lemma append_assoc (a b c : string) : (a +:+ b) +:+ c = a +:+ b +:+ c.
Proof. induction a as [|x a IH]; [done|]. change (String x ((a +:+ b) +:+ c) = String x (a +:+ b +:+ c)). by f_equal. Qed.

Lemma append_nil_r (a : string) : a +:+ EmptyString = a.
Proof. induction a as [|x a IH]; [done|]. change (String x (a +:+ EmptyString) = String x a). by f_equal. Qed.

Lemma chars_app a b :
  list_ascii_of_string (a +:+ b) = list_ascii_of_string a ++ list_ascii_of_string b.
Proof. induction a as [|c a IH]; [done|]. simpl. by rewrite IH. Qed.

Lemma free_of_app c a b : free_of c (a +:+ b) ↔ free_of c a ∧ free_of c b.
Proof. unfold free_of. rewrite chars_app. set_solver. Qed.

Lemma free_of_cons c d s : free_of c (String d s) ↔ c ≠ d ∧ free_of c s.
Proof. unfold free_of. simpl. set_solver. Qed.

Lemma free_of_nil c : free_of c EmptyString.
Proof. unfold free_of. simpl. set_solver. Qed.

(** Settles [free_of] on a literal. *)
Ltac free_of_literal :=
  unfold free_of; apply (bool_decide_unpack _); vm_compute; exact I.

Lemma universal_newlines_other c s :
  c ≠ "013"%char → universal_newlines (String c s) = String c (universal_newlines s).
Proof. intros Hc. simpl. by destruct (Ascii.eqb_spec c "013"). Qed.

(** A text without carriage return reads as it is stored. *)
Lemma universal_newlines_free s : free_of "013" s → universal_newlines s = s.
Proof.
  induction s as [|c s IH]; [done|].
  intros [Hc Hs]%free_of_cons. rewrite universal_newlines_other by done. by rewrite IH.
Qed.

(** What a write in text mode stored reads as the text, when the text
    holds no carriage return. *)
Lemma crlf_reads s : free_of "013" s → universal_newlines (crlf s) = s.
Proof.
  induction s as [|c s IH]; [done|].
  intros [Hc Hs]%free_of_cons. cbn [crlf].
  destruct (Ascii.eqb_spec c "010") as [->|Hlf].
  - change (universal_newlines (String "013" (String "010" (crlf s))))
      with (String "010" (universal_newlines (crlf s))).
    by rewrite IH.
  - rewrite universal_newlines_other by done. by rewrite IH.
Qed.

Lemma text_bytes_reads windows s :
  free_of "013" s → universal_newlines (text_bytes windows s) = s.
Proof.
  intros Hs. destruct windows; [by apply crlf_reads|by apply universal_newlines_free].
Qed.

(** The decimal digits of a number hold no carriage return. *)
Lemma digits_free x : ∀ s, free_of "013" s → free_of "013" (pretty_N_go x s).
Proof.
  induction x as [x IH] using (well_founded_induction N.lt_wf_0). intros s Hs.
  destruct (decide (x = 0%N)) as [->|Hx]; [done|].
  rewrite pretty_N_go_step by lia. apply IH; [apply N.div_lt; lia|].
  apply free_of_cons. split; [|done].
  unfold pretty_N_char. by repeat case_match.
Qed.

Lemma pretty_Z_free (z : Z) : free_of "013" (pretty z).
Proof.
  assert (∀ p : positive, free_of "013" (pretty p)) as Hpos.
  { intros p. unfold pretty, pretty_positive, pretty, pretty_N.
    destruct (decide _); [done|]. apply digits_free, free_of_nil. }
  destruct z as [|p|p]; [free_of_literal|apply Hpos|].
  unfold pretty, pretty_Z. apply free_of_app. split; [free_of_literal|apply Hpos].
Qed.

(** ** Idempotent writes *)

Ltac run_wid H :=
  unfold write_if_diff, read_text, bind, get, modify, path_exists, read_file, when, ret,
    write_file;
  simpl; repeat (rewrite ?H; simpl).

Section WriteIfDiff.
Context (E : Env) (f : path) (text : string) (w : World).
Let q := resolve (cwd w) f.

Lemma write_if_diff_same d ro :
  fs w !! q = Some (File d ro) → universal_newlines d = text →
  write_if_diff E f text w = (Ok tt, emit (EHeader q text) w).
Proof.
  intros H Hd. unfold q in *. run_wid H. by rewrite Hd, String.eqb_refl.
Qed.

Lemma write_if_diff_new :
  fs w !! q = None →
  write_if_diff E f text w =
  (Ok tt, set_fs (<[q := File (text_bytes (is_windows E) text) false]> (fs w))
            (emit (EWrite q text) (emit (EHeader q text) w))).
Proof.
  intros H. unfold q in *. by run_wid H.
Qed.

Lemma write_if_diff_changed d :
  fs w !! q = Some (File d false) → universal_newlines d ≠ text →
  write_if_diff E f text w =
  (Ok tt, set_fs (<[q := File (text_bytes (is_windows E) text) false]> (fs w))
            (emit (EWrite q text) (emit (EHeader q text) w))).
Proof.
  intros H Hd. unfold q in *. run_wid H.
  destruct (String.eqb_spec (universal_newlines d) text); [done|].
  simpl. by rewrite H.
Qed.

Lemma write_if_diff_denied d :
  fs w !! q = Some (File d true) → universal_newlines d ≠ text →
  write_if_diff E f text w =
  (Raise PermissionError, emit (EWrite q text) (emit (EHeader q text) w)).
Proof.
  intros H Hd. unfold q in *. run_wid H.
  destruct (String.eqb_spec (universal_newlines d) text); [done|].
  simpl. by rewrite H.
Qed.

(** Whatever the state of the file: the call is recorded, at most
    one write follows it, no other file changes, a failure is a refused
    write, and after a return the file holds the text as written or
    had been left alone because it reads as the text. *)
Lemma write_if_diff_cases :
  ∃ r w', write_if_diff E f text w = (r, w') ∧
    cwd w' = cwd w ∧ args w' = args w ∧
    (trace w' = trace w ++ [EHeader q text] ∨
     trace w' = trace w ++ [EHeader q text; EWrite q text]) ∧
    (r = Ok tt → ∃ d ro, fs w' !! q = Some (File d ro) ∧
                         (d = text_bytes (is_windows E) text ∨ universal_newlines d = text)) ∧
    (∀ k, k ≠ q → fs w' !! k = fs w !! k) ∧
    (∀ e, r = Raise e → ∃ d, fs w !! q = Some (File d true)).
Proof.
  destruct (fs w !! q) as [[d ro]|] eqn:H.
  - destruct (decide (universal_newlines d = text)) as [Hd|Hd].
    + rewrite (write_if_diff_same _ _ H Hd). eexists _, _. split; [done|].
      simpl. repeat split; eauto. done.
    + destruct ro.
      * rewrite (write_if_diff_denied _ H Hd). eexists _, _. split; [done|].
        simpl. rewrite <- app_assoc. repeat split; eauto. done.
      * rewrite (write_if_diff_changed _ H Hd). eexists _, _. split; [done|].
        simpl. rewrite <- app_assoc. repeat split; eauto.
        -- intros _. exists (text_bytes (is_windows E) text), false. by rewrite lookup_insert_eq; eauto.
        -- intros k Hk. by rewrite lookup_insert_ne.
        -- done.
  - rewrite (write_if_diff_new H). eexists _, _. split; [done|].
    simpl. rewrite <- app_assoc. repeat split; eauto.
    + intros _. exists (text_bytes (is_windows E) text), false. by rewrite lookup_insert_eq; eauto.
    + intros k Hk. by rewrite lookup_insert_ne.
    + done.
Qed.
End WriteIfDiff.

(** ** The flag header *)

Lemma flag_text_lines (cfg : Config) (r : bool) :
  flag_text cfg r =
  flag_template +:+
  "#define MAGISK_VERSION      " +:+ DQ +:+ version cfg +:+ DQ +:+ LF +:+
  "#define MAGISK_VER_CODE     " +:+ pretty (versionCode cfg) +:+ LF +:+
  "#define MAGISK_DEBUG        " +:+ (if r then "0" else "1") +:+ LF.
Proof. unfold flag_text. cbv zeta. by rewrite !append_assoc. Qed.

Lemma added_emit w e : added w (emit e w) = [e].
Proof. unfold added. simpl. by rewrite drop_app_length. Qed.

Lemma dump_flag_header_unfold (E : Env) (w : World) :
  dump_flag_header E w =
  write_if_diff E (native_gen_path E ++ ["flags.h"])
    (flag_text (config E) (release (args w))) w.
Proof. done. Qed.

Lemma added_app w w' evs : trace w' = trace w ++ evs → added w w' = evs.
Proof. intros H. unfold added. by rewrite H, drop_app_length. Qed.

(** C7. [dump_flag_header] hands [write_if_diff] the fixed template
    followed by the MAGISK_VERSION, MAGISK_VER_CODE and MAGISK_DEBUG
    lines, the last one with 0 on a release profile and 1 on a debug
    profile; the text is a function of the configuration and the profile
    alone, and after a normal return [flags.h] holds it as a write in
    text mode stores it, or had been left alone because it reads as
    it. *)
Theorem flag_header_content (E : Env) (w : World) :
  let text :=
    flag_template +:+
    "#define MAGISK_VERSION      " +:+ DQ +:+ version (config E) +:+ DQ +:+ LF +:+
    "#define MAGISK_VER_CODE     " +:+ pretty (versionCode (config E)) +:+ LF +:+
    "#define MAGISK_DEBUG        " +:+ (if release (args w) then "0" else "1") +:+ LF in
  let f := resolve (cwd w) (native_gen_path E ++ ["flags.h"]) in
  milestones (added w (dump_flag_header E w).2) = [MHeader f text] ∧
  match (dump_flag_header E w).1 with
  | Ok _ => ∃ stored ro,
              fs (dump_flag_header E w).2 !! f = Some (File stored ro) ∧
              (stored = text_bytes (is_windows E) text ∨
               universal_newlines stored = text)
  | Raise _ => True
  end.
Proof.
  cbv zeta. rewrite <- flag_text_lines, dump_flag_header_unfold.
  destruct (write_if_diff_cases E (native_gen_path E ++ ["flags.h"])
              (flag_text (config E) (release (args w))) w)
    as (r & w' & -> & _ & _ & Htr & Hfile & _ & _).
  simpl. split.
  - by destruct Htr as [Htr|Htr]; rewrite (added_app _ _ _ Htr).
  - destruct r as [[]|e]; [|done]. by apply Hfile.
Qed.

(** ** The payload header *)

Lemma loop_cons i c rest out :
  binary_dump_loop i (c :: rest) out =
  binary_dump_loop (S i) rest
    ((if (i mod 16 =? 0)%nat then out +:+ LF else out) +:+ element c).
Proof. reflexivity. Qed.

Lemma loop_append bytes : ∀ i out,
  binary_dump_loop i bytes out = out +:+ binary_dump_loop i bytes EmptyString.
Proof.
  induction bytes as [|c rest IH]; intros i out.
  - simpl. by rewrite append_nil_r.
  - rewrite !loop_cons, (IH _ (_ +:+ element c)).
    rewrite (IH _ ((if (i mod 16 =? 0)%nat then _ else _) +:+ _)).
    destruct (i mod 16 =? 0)%nat; by rewrite ?append_assoc.
Qed.

Lemma mod16_succ i : i mod 16 + 1 < 16 → S i mod 16 = S (i mod 16).
Proof.
  intros H. symmetry. apply (Nat.mod_unique (S i) 16 (i / 16)); [lia|].
  pose proof (Nat.div_mod_eq i 16). lia.
Qed.

Lemma loop_within_row row : ∀ i rest,
  0 < i mod 16 → i mod 16 + List.length row ≤ 16 →
  binary_dump_loop i (row ++ rest) EmptyString =
  cat (map element row) +:+ binary_dump_loop (i + List.length row) rest EmptyString.
Proof.
  induction row as [|c row IH]; intros i rest Hpos Hlen.
  - simpl. by rewrite Nat.add_0_r.
  - change ((c :: row) ++ rest) with (c :: (row ++ rest)).
    change (List.length (c :: row)) with (S (List.length row)) in *.
    rewrite loop_cons. destruct (Nat.eqb_spec (i mod 16) 0) as [?|_]; [lia|].
    rewrite loop_append.
    change (cat (map element (c :: row))) with (element c +:+ cat (map element row)).
    change (EmptyString +:+ element c) with (element c).
    rewrite append_assoc. f_equal.
    destruct row as [|d row].
    + simpl. by rewrite Nat.add_1_r.
    + change (List.length (d :: row)) with (S (List.length row)) in *.
      rewrite IH.
      * change (List.length (d :: row)) with (S (List.length row)).
        by replace (S i + S (List.length row)) with (i + S (S (List.length row))) by lia.
      * rewrite mod16_succ; lia.
      * change (List.length (d :: row)) with (S (List.length row)).
        rewrite mod16_succ; lia.
Qed.

Lemma loop_row row rest k :
  1 ≤ List.length row ≤ 16 →
  binary_dump_loop (16 * k) (row ++ rest) EmptyString =
  render_row row +:+ binary_dump_loop (16 * k + List.length row) rest EmptyString.
Proof.
  intros Hlen. destruct row as [|c row]; [simpl in Hlen; lia|].
  change ((c :: row) ++ rest) with (c :: (row ++ rest)).
  change (List.length (c :: row)) with (S (List.length row)) in *.
  rewrite loop_cons.
  assert ((16 * k) mod 16 = 0) as Hz.
  { rewrite Nat.mul_comm. apply Nat.Div0.mod_mul. }
  rewrite Hz. change (0 =? 0) with true. cbv iota.
  rewrite loop_append.
  unfold render_row.
  change (cat (map element (c :: row))) with (element c +:+ cat (map element row)).
  change (EmptyString +:+ LF) with LF.
  rewrite !append_assoc. do 2 f_equal.
  destruct row as [|d row].
  - simpl. by rewrite Nat.add_1_r.
  - assert (S (16 * k) mod 16 = 1) as H1.
    { rewrite mod16_succ; rewrite Hz; lia. }
    rewrite loop_within_row; [|rewrite H1; lia..].
    by replace (S (16 * k) + List.length (d :: row))
      with (16 * k + S (List.length (d :: row))) by lia.
Qed.

Lemma rows_of_nil fuel : rows_of fuel [] = [].
Proof. by destruct fuel. Qed.

Lemma loop_rows fuel : ∀ bytes k,
  List.length bytes ≤ fuel →
  binary_dump_loop (16 * k) bytes EmptyString = cat (map render_row (rows_of fuel bytes)).
Proof.
  induction fuel as [|fuel IH]; intros bytes k Hlen.
  - destruct bytes; [done|simpl in Hlen; lia].
  - destruct bytes as [|c bytes]; [done|].
    change (rows_of (S fuel) (c :: bytes)) with
      (take 16 (c :: bytes) :: rows_of fuel (drop 16 (c :: bytes))).
    rewrite <- (take_drop 16 (c :: bytes)) at 1.
    assert (List.length (drop 16 (c :: bytes)) ≤ fuel) as Hd.
    { rewrite length_drop. change (List.length (c :: bytes)) with (S (List.length bytes)) in *. lia. }
    rewrite loop_row.
    2:{ rewrite length_take. change (List.length (c :: bytes)) with (S (List.length bytes)). lia. }
    cbn [map cat].
    f_equal. destruct (decide (List.length (c :: bytes) ≤ 16)) as [Hs|Hs].
    + rewrite (drop_ge (c :: bytes)) by done. by rewrite rows_of_nil.
    + rewrite length_take, Nat.min_l by lia.
      replace (16 * k + 16) with (16 * S k) by lia. by apply IH.
Qed.

Lemma rows_concat fuel : ∀ bytes,
  List.length bytes ≤ fuel → List.concat (rows_of fuel bytes) = bytes.
Proof.
  induction fuel as [|fuel IH]; intros bytes Hlen.
  - destruct bytes; [done|simpl in Hlen; lia].
  - destruct bytes as [|c bytes]; [done|].
    change (rows_of (S fuel) (c :: bytes)) with
      (take 16 (c :: bytes) :: rows_of fuel (drop 16 (c :: bytes))).
    cbn [List.concat]. rewrite IH; [apply take_drop|].
    rewrite length_drop. change (List.length (c :: bytes)) with (S (List.length bytes)) in *. lia.
Qed.

Lemma rows_bounded fuel : ∀ bytes,
  Forall (λ row, 1 ≤ List.length row ≤ 16) (rows_of fuel bytes).
Proof.
  induction fuel as [|fuel IH]; intros bytes; [constructor|].
  destruct bytes as [|c bytes]; [constructor|].
  change (rows_of (S fuel) (c :: bytes)) with
    (take 16 (c :: bytes) :: rows_of fuel (drop 16 (c :: bytes))).
  constructor; [|apply IH]. rewrite length_take.
  change (List.length (c :: bytes)) with (S (List.length bytes)). lia.
Qed.

Lemma binary_dump_payload_text src var_name compressor :
  binary_dump src var_name compressor =
  payload_text var_name (list_ascii_of_string (compressor src)).
Proof.
  unfold binary_dump, payload_text, rows. cbv zeta.
  rewrite loop_append, (loop_rows _ _ 0) by done.
  by rewrite !append_assoc.
Qed.

Lemma hex02X_digits (c : ascii) :
  ∃ hi lo, hex02X c = String hi (String lo EmptyString) ∧
           hex_value hi = Some (N_of_ascii c / 16)%N ∧
           hex_value lo = Some (N_of_ascii c mod 16)%N.
Proof.
  exists (hex_digit (N_of_ascii c / 16)), (hex_digit (N_of_ascii c mod 16)).
  split; [done|].
  destruct c as [[] [] [] [] [] [] [] []]; split; vm_compute; reflexivity.
Qed.

(** The rendering holds no carriage return, so it reads as it is
    stored. *)
Lemma element_free c : free_of "013" (element c).
Proof. destruct c as [[] [] [] [] [] [] [] []]; free_of_literal. Qed.

Lemma loop_free bytes : ∀ i, free_of "013" (binary_dump_loop i bytes EmptyString).
Proof.
  induction bytes as [|c rest IH]; intros i; [apply free_of_nil|].
  rewrite loop_cons, loop_append. apply free_of_app. split; [|apply IH].
  apply free_of_app. split; [|apply element_free].
  destruct (i mod 16 =? 0); free_of_literal.
Qed.

Lemma binary_dump_free src var_name compressor :
  free_of "013" var_name → free_of "013" (binary_dump src var_name compressor).
Proof.
  intros Hv. unfold binary_dump. cbv zeta. rewrite loop_append.
  repeat (apply free_of_app; split); try done; try apply loop_free; free_of_literal.
Qed.

Lemma binary_dump_reads windows src compressor :
  universal_newlines (text_bytes windows (binary_dump src "init_ld_xz" compressor)) =
  binary_dump src "init_ld_xz" compressor.
Proof. apply text_bytes_reads, binary_dump_free. free_of_literal. Qed.

Lemma skip_prefix_app p rest : skip_prefix p (p +:+ rest) = Some rest.
Proof.
  induction p as [|c p IH]; [done|].
  simpl. by rewrite Ascii.eqb_refl.
Qed.

Lemma parse_element c tail :
  parse_body (element c +:+ tail) =
  match parse_body tail with
  | Some bytes => Some (c :: bytes)
  | None => None
  end.
Proof.
  destruct (hex02X_digits c) as (hi & lo & Hx & Hhi & Hlo).
  unfold element. rewrite Hx.
  change (("0x" +:+ String hi (String lo EmptyString) +:+ ",") +:+ tail)
    with (String "0" (String "x" (String hi (String lo (String "," tail))))).
  cbn [parse_body]. rewrite Hhi, Hlo.
  destruct (parse_body tail); [|done].
  rewrite <- N.div_mod by done. by rewrite ascii_N_embedding.
Qed.

Lemma parse_loop bytes : ∀ i,
  parse_body (binary_dump_loop i bytes EmptyString +:+ LF +:+ "};" +:+ LF) = Some bytes.
Proof.
  induction bytes as [|c rest IH]; intros i; [done|].
  rewrite loop_cons, loop_append, append_assoc.
  destruct (i mod 16 =? 0).
  - change (EmptyString +:+ LF) with LF. rewrite append_assoc.
    change (LF +:+ ?x) with (String "010" x).
    cbn [parse_body].
    assert (∀ x, String.eqb (element c +:+ x) ("};" +:+ LF) = false) as -> by done.
    by rewrite parse_element, IH.
  - change (EmptyString +:+ element c) with (element c).
    by rewrite parse_element, IH.
Qed.

Lemma parse_header_binary_dump src var_name compressor :
  parse_header var_name (binary_dump src var_name compressor) = Some (compressor src).
Proof.
  unfold parse_header, binary_dump. cbv zeta.
  rewrite loop_append, !append_assoc.
  match goal with |- context [skip_prefix ?p (_ +:+ _ +:+ _ +:+ ?x)] =>
    replace (skip_prefix p _) with (skip_prefix p (p +:+ x))
      by (by rewrite !append_assoc) end.
  rewrite skip_prefix_app, parse_loop.
  simpl. by rewrite string_of_list_ascii_of_string.
Qed.

(** ** Paths *)

Lemma fold_path_step_last p c acc :
  c ≠ ".." → last (fold_left path_step (p ++ [c]) acc) = Some c.
Proof.
  intros Hc. rewrite fold_left_app. simpl. unfold path_step at 1.
  rewrite bool_decide_eq_false_2 by done. apply last_snoc.
Qed.

Lemma resolve_last cwd p c : c ≠ ".." → last (resolve cwd (p ++ [c])) = Some c.
Proof.
  intros Hc. unfold resolve. destruct (is_abs (p ++ [c])) eqn:Habs.
  - destruct p as [|d p]; simpl in *.
    + by apply bool_decide_eq_true in Habs as ->.
    + by apply fold_path_step_last.
  - by apply fold_path_step_last.
Qed.

Lemma resolve_down_up cwd c : c ≠ ".." → c ≠ "/" → resolve (resolve cwd [c]) [".."] = cwd.
Proof.
  intros H1 H2. unfold resolve. simpl.
  rewrite (bool_decide_eq_false_2 (c = "/")) by done. simpl.
  unfold path_step. rewrite (bool_decide_eq_false_2 (c = "..")) by done.
  simpl. apply removelast_last.
Qed.

Lemma arch_cases (P : string → Prop) :
  P "armeabi-v7a" → P "x86" → P "arm64-v8a" → P "x86_64" →
  ∀ a, a ∈ archs → P a.
Proof.
  intros H1 H2 H3 H4 a Ha. unfold archs in Ha.
  repeat (apply elem_of_cons in Ha as [->|Ha]; [done|]).
  by apply elem_of_nil in Ha.
Qed.

Lemma bin_header_last E cwd a :
  a ∈ archs → last (resolve cwd (bin_header_path E a)) = Some (a +:+ "_binaries.h").
Proof.
  intros Ha. apply resolve_last. pattern a. revert a Ha. by apply arch_cases.
Qed.

Lemma so_path_last cwd a : last (resolve cwd (so_path a)) = Some "libinit-ld.so".
Proof. by apply (resolve_last cwd ["native"; "out"; a]). Qed.

Lemma bin_header_not_so E cwd a b :
  a ∈ archs → resolve cwd (so_path b) ≠ resolve cwd (bin_header_path E a).
Proof.
  intros Ha Heq. apply (f_equal last) in Heq.
  rewrite so_path_last, bin_header_last in Heq by done.
  revert Heq. pattern a. revert a Ha. by apply arch_cases.
Qed.

Lemma bin_header_inj E cwd a b :
  a ∈ archs → b ∈ archs →
  resolve cwd (bin_header_path E a) = resolve cwd (bin_header_path E b) → a = b.
Proof.
  intros Ha Hb Heq. apply (f_equal last) in Heq.
  rewrite !bin_header_last in Heq by done.
  revert Heq. pattern a. revert a Ha.
  apply arch_cases; intros Heq; revert Heq; pattern b; revert b Hb;
    apply arch_cases; done.
Qed.

(** ** The payload headers of the four architectures *)

Lemma dump_bin_header_unfold E : dump_bin_header E = for_each archs (bin_body E).
Proof. reflexivity. Qed.

Lemma for_each_cons {A} (x : A) l body w :
  for_each (x :: l) body w =
  match body x w with
  | (Ok _, w1) => for_each l body w1
  | (Raise e, w1) => (Raise e, w1)
  end.
Proof. reflexivity. Qed.

Lemma bin_body_run E a w :
  bin_body E a w =
  match fs w !! resolve (cwd w) (so_path a) with
  | Some f => write_if_diff E (bin_header_path E a)
                (binary_dump (f_data f) "init_ld_xz" (xz E)) w
  | None => (Raise FileNotFoundError, w)
  end.
Proof. unfold bin_body, bind, read_file. by destruct (fs w !! _). Qed.

Lemma milestones_app l1 l2 : milestones (l1 ++ l2) = milestones l1 ++ milestones l2.
Proof. apply omap_app. Qed.

Lemma bin_loop E l :
  NoDup l → (∀ a, a ∈ l → a ∈ archs) → ∀ w,
  ∃ evs, trace (for_each l (bin_body E) w).2 = trace w ++ evs ∧
    match (for_each l (bin_body E) w).1 with
    | Ok _ =>
        milestones evs = map (bin_header_milestone E w) l ∧
        cwd (for_each l (bin_body E) w).2 = cwd w ∧
        args (for_each l (bin_body E) w).2 = args w ∧
        (∀ a, a ∈ l → ∃ stored ro,
           is_Some (fs w !! resolve (cwd w) (so_path a)) ∧
           fs (for_each l (bin_body E) w).2 !! resolve (cwd w) (bin_header_path E a) =
           Some (File stored ro) ∧
           universal_newlines stored = binary_dump (so_data w a) "init_ld_xz" (xz E)) ∧
        (∀ k, (∀ a, a ∈ l → k ≠ resolve (cwd w) (bin_header_path E a)) →
           fs (for_each l (bin_body E) w).2 !! k = fs w !! k)
    | Raise _ =>
        milestones evs `prefix_of` map (bin_header_milestone E w) l ∧
        ∃ a, a ∈ l ∧ bin_blocked E w a
    end.
Proof.
  induction l as [|a l IH]; intros Hnd Hin w.
  - exists []. simpl. rewrite app_nil_r. repeat split; try done.
    intros a Ha. by apply elem_of_nil in Ha.
  - apply NoDup_cons in Hnd as [Hna Hnd].
    assert (a ∈ archs) as Ha by (apply Hin; by left).
    assert (∀ b, b ∈ l → b ∈ archs) as Hin' by (intros b Hb; apply Hin; by right).
    rewrite for_each_cons, bin_body_run.
    destruct (fs w !! resolve (cwd w) (so_path a)) as [f|] eqn:Hf.
    2:{ exists []. simpl. rewrite app_nil_r. split; [done|]. split; [apply prefix_nil|].
        exists a. split; [by left|by left]. }
    assert (so_data w a = f_data f) as Hdata by (unfold so_data; by rewrite Hf).
    destruct (write_if_diff_cases E (bin_header_path E a)
                (binary_dump (f_data f) "init_ld_xz" (xz E)) w)
      as (r1 & w1 & -> & Hcwd & Hargs & Htr & Hfile & Hother & Hdenied).
    assert (∃ evs1, trace w1 = trace w ++ evs1 ∧
                    milestones evs1 = [bin_header_milestone E w a]) as (evs1 & Htr1 & Hms1).
    { unfold bin_header_milestone. rewrite Hdata.
      destruct Htr as [Htr|Htr]; eexists; (split; [exact Htr|done]). }
    destruct r1 as [[]|e].
    2:{ exists evs1. simpl. split; [done|]. rewrite Hms1.
        split; [apply prefix_cons, prefix_nil|].
        exists a. split; [by left|right]. by apply (Hdenied e). }
    assert (map (bin_header_milestone E w1) l = map (bin_header_milestone E w) l) as Hmap.
    { apply map_ext_in. intros b Hb%list_elem_of_In.
      unfold bin_header_milestone, so_data. rewrite Hcwd.
      rewrite Hother; [done|]. apply bin_header_not_so, Ha. }
    destruct (IH Hnd Hin' w1) as (evs & Htr2 & Hres).
    destruct (for_each l (bin_body E) w1) as [r2 w2]. simpl in *.
    exists (evs1 ++ evs). split.
    { by rewrite Htr2, Htr1, app_assoc. }
    rewrite milestones_app, Hms1. rewrite Hmap in Hres.
    destruct r2 as [[]|e].
    2:{ destruct Hres as (Hpre & b & Hb & Hblocked). split; [by apply prefix_cons|].
        exists b. split; [by right|].
        unfold bin_blocked in *. rewrite Hcwd in Hblocked.
        rewrite !Hother in Hblocked; [done| |apply bin_header_not_so, Ha].
        intros Heq. apply bin_header_inj in Heq; [|by apply Hin'|done]. by subst. }
    destruct Hres as (Hms & Hcwd2 & Hargs2 & Hfiles & Hrest).
    rewrite Hcwd in *.
    split; [by rewrite Hms|]. split; [done|]. split; [congruence|]. split.
    + intros b [->|Hb]%elem_of_cons.
      * destruct (Hfile eq_refl) as (d & ro & Hro & Hd). exists d, ro.
        split; [by rewrite Hf|]. split.
        -- rewrite Hrest; [done|].
           intros c Hc Heq. apply bin_header_inj in Heq; [|done|by apply Hin'].
           by subst.
        -- rewrite Hdata. destruct Hd as [->|Hd]; [apply binary_dump_reads|done].
      * destruct (Hfiles b Hb) as (d & ro & Hso & Hro & Hd). exists d, ro.
        rewrite Hother in Hso by apply bin_header_not_so, Ha.
        split; [done|]. split; [done|]. rewrite Hd.
        unfold so_data. rewrite Hcwd, Hother; [done|].
        apply bin_header_not_so, Ha.
    + intros k Hk. rewrite Hrest.
      * apply Hother, Hk. by left.
      * intros b Hb. apply Hk. by right.
Qed.

Lemma NoDup_archs : NoDup archs.
Proof.
  unfold archs. repeat (apply NoDup_cons; split; [set_solver|]). apply NoDup_nil_2.
Qed.

(** When every header already reads as what would be generated, the
    loop only reads. *)
Lemma bin_loop_fixed E l : ∀ w,
  (∀ a, a ∈ l → ∃ stored ro,
     is_Some (fs w !! resolve (cwd w) (so_path a)) ∧
     fs w !! resolve (cwd w) (bin_header_path E a) = Some (File stored ro) ∧
     universal_newlines stored = binary_dump (so_data w a) "init_ld_xz" (xz E)) →
  ∃ w' evs, for_each l (bin_body E) w = (Ok tt, w') ∧
    fs w' = fs w ∧ cwd w' = cwd w ∧ trace w' = trace w ++ evs ∧ written evs = [].
Proof.
  induction l as [|a l IH]; intros w Hl.
  - exists w, []. by rewrite app_nil_r.
  - destruct (Hl a) as (d & ro & [f Hf] & Hh & Hd); [by left|].
    rewrite for_each_cons, bin_body_run, Hf.
    unfold so_data in Hd. rewrite Hf in Hd.
    rewrite (write_if_diff_same _ _ _ _ d ro Hh Hd).
    edestruct (IH (emit (EHeader (resolve (cwd w) (bin_header_path E a))
                           (binary_dump (f_data f) "init_ld_xz" (xz E))) w))
      as (w' & evs & -> & Hfs & Hcwd & Htr & Hwr).
    { intros b Hb. apply (Hl b). by right. }
    exists w', (EHeader (resolve (cwd w) (bin_header_path E a))
                  (binary_dump (f_data f) "init_ld_xz" (xz E)) :: evs).
    split; [done|]. split; [done|]. split; [done|].
    split; [|exact Hwr]. rewrite Htr. simpl. by rewrite <- app_assoc.
Qed.

(** When the configured version string holds no carriage return, the
    text of the flag header holds none. *)
Lemma flag_text_free cfg r :
  free_of "013" (version cfg) → free_of "013" (flag_text cfg r).
Proof.
  intros Hv. unfold flag_text, flag_template. cbv zeta.
  repeat (apply free_of_app; split); try done; try apply pretty_Z_free;
    try (by destruct r; free_of_literal); free_of_literal.
Qed.




(** C6. [binary_dump] yields one array declaration under the given
    symbol, its elements in rows of one to sixteen, every element the
    two upper-case hexadecimal digits of a compressed byte; and when
    [dump_bin_header] returns it has generated, for each architecture in
    turn, the header [<arch>_binaries.h] from that architecture's
    preload library under the symbol init_ld_xz, and the file, read as
    text, holds it (a header that already read as it was left alone).
    It fails only on a missing library or a read-only header. *)
Theorem payload_header_format (E : Env) (w : World) (src var_name : string)
    (compressor : string → string) :
  let bytes := list_ascii_of_string (compressor src) in
  binary_dump src var_name compressor =
    "constexpr unsigned char " +:+ var_name +:+ "[] = {" +:+
    cat (map render_row (rows bytes)) +:+ LF +:+ "};" +:+ LF ∧
  List.concat (rows bytes) = bytes ∧
  Forall (λ row, 1 ≤ List.length row ≤ 16) (rows bytes) ∧
  (∀ c, ∃ hi lo, element c = "0x" +:+ String hi (String lo ",") ∧
                 hex_value hi = Some (N_of_ascii c / 16)%N ∧
                 hex_value lo = Some (N_of_ascii c mod 16)%N) ∧
  match (dump_bin_header E w).1 with
  | Ok _ =>
      milestones (added w (dump_bin_header E w).2) =
        map (λ arch, MHeader (resolve (cwd w) (native_gen_path E ++ [arch +:+ "_binaries.h"]))
                       (binary_dump (so_data w arch) "init_ld_xz" (xz E))) archs ∧
      Forall (λ arch, ∃ stored ro,
                fs (dump_bin_header E w).2 !!
                   resolve (cwd w) (native_gen_path E ++ [arch +:+ "_binaries.h"]) =
                Some (File stored ro) ∧
                universal_newlines stored =
                payload_text "init_ld_xz"
                  (list_ascii_of_string (xz E (so_data w arch)))) archs
  | Raise _ => Exists (bin_blocked E w) archs
  end.
Proof.
  cbv zeta. split; [apply binary_dump_payload_text|].
  split; [by apply rows_concat|]. split; [apply rows_bounded|]. split.
  - intros c. destruct (hex02X_digits c) as (hi & lo & Hx & Hhi & Hlo).
    exists hi, lo. unfold element. by rewrite Hx.
  - rewrite dump_bin_header_unfold.
    destruct (bin_loop E archs NoDup_archs (λ a Ha, Ha) w) as (evs & Htr & Hres).
    destruct (for_each archs (bin_body E) w) as [[[]|e] w']; simpl in *.
    + destruct Hres as (Hms & _ & _ & Hfiles & _). split.
      * by rewrite (added_app _ _ _ Htr).
      * apply Forall_forall. intros a Ha.
        destruct (Hfiles a Ha) as (d & ro & _ & Hh & Hd).
        exists d, ro. split; [exact Hh|]. by rewrite <- binary_dump_payload_text.
    + destruct Hres as (_ & a & Ha & Hb). apply Exists_exists. eauto.
Qed.

(** ** Compression round trip *)

Section Compression.
Context (E : Env) (lzma_decompress : string → option string).
(** The contract of the LZMA library for the format [xz] asks for. *)
Hypothesis lzma_round_trip :
  ∀ data, lzma_decompress (lzma_compress E data 9 CHECK_NONE) = Some data.

(** C5. [xz] is the LZMA compressor at preset 9 with no integrity
    check; its output decompresses to the input; the array rendered by
    [binary_dump] reads back as exactly the compressed bytes, hence
    decompresses to the input; and after [dump_bin_header] returns,
    each architecture's header, read as text, reads back and
    decompresses to that architecture's preload library. *)
Theorem payload_round_trip (w : World) (b : string) :
  xz E b = lzma_compress E b 9 CHECK_NONE ∧
  lzma_decompress (xz E b) = Some b ∧
  parse_header "init_ld_xz" (binary_dump b "init_ld_xz" (xz E)) = Some (xz E b) ∧
  parse_header "init_ld_xz" (binary_dump b "init_ld_xz" (xz E)) ≫= lzma_decompress
    = Some b ∧
  match (dump_bin_header E w).1 with
  | Ok _ =>
      Forall (λ arch, ∃ so text ro,
                fs w !! resolve (cwd w) ["native"; "out"; arch; "libinit-ld.so"] = Some so ∧
                fs (dump_bin_header E w).2 !!
                   resolve (cwd w) (native_gen_path E ++ [arch +:+ "_binaries.h"]) =
                Some (File text ro) ∧
                parse_header "init_ld_xz" (universal_newlines text) ≫= lzma_decompress
                = Some (f_data so))
             archs
  | Raise _ => Exists (bin_blocked E w) archs
  end.
Proof.
  split; [done|]. split; [apply lzma_round_trip|].
  split; [apply parse_header_binary_dump|]. split.
  { rewrite parse_header_binary_dump. simpl. apply lzma_round_trip. }
  rewrite dump_bin_header_unfold.
  destruct (bin_loop E archs NoDup_archs (λ a Ha, Ha) w) as (evs & Htr & Hres).
  destruct (for_each archs (bin_body E) w) as [[[]|e] w']; simpl in *.
  - destruct Hres as (_ & _ & _ & Hfiles & _).
    apply Forall_forall. intros a Ha.
    destruct (Hfiles a Ha) as (d & ro & [so Hso] & Hh & Hd).
    exists so, d, ro.
    split; [exact Hso|]. split; [exact Hh|].
    rewrite Hd, parse_header_binary_dump. simpl. unfold xz. rewrite lzma_round_trip.
    unfold so_data, so_path in *. by rewrite Hso.
  - destruct Hres as (_ & a & Ha & Hb). apply Exists_exists. eauto.
Qed.
End Compression.

Lemma payload_round_trip_witness :
  parse_header "init_ld_xz"
    (binary_dump "ELF-x86" "init_ld_xz" (xz Demo.env)) ≫= Demo.decompress
  = Some "ELF-x86".
Proof.
  apply (payload_round_trip Demo.env Demo.decompress (λ data, eq_refl)
           (Demo.world None true) "ELF-x86").
Defined.

(** ** Relocation *)

Lemma mv_run source target w :
  ∃ w', mv source target w = (Ok tt, w') ∧
    trace w' = trace w ++ [EMove (resolve (cwd w) source) (resolve (cwd w) target)] ∧
    cwd w' = cwd w ∧ args w' = args w.
Proof.
  unfold mv, try_pass, bind, shutil_move, vprint, ret. simpl.
  destruct (fs w !! resolve (cwd w) source) as [f|]; [|by eexists].
  destruct (fs w !! resolve (cwd w) target) as [[d []]|]; by eexists.
Qed.

Lemma mv_missing source target w :
  fs w !! resolve (cwd w) source = None →
  mv source target w =
  (Ok tt, emit (EMove (resolve (cwd w) source) (resolve (cwd w) target)) w).
Proof.
  intros H. unfold mv, try_pass, bind, shutil_move, vprint, ret. simpl.
  by rewrite H.
Qed.

(** A loop whose turns always return and keep the working directory. *)
Lemma for_each_steady {A} (l : list A) (body : A → M unit) (ev : A → list event) c :
  (∀ x w, cwd w = c →
     ∃ w', body x w = (Ok tt, w') ∧ trace w' = trace w ++ ev x ∧
           cwd w' = c ∧ args w' = args w) →
  ∀ w, cwd w = c →
    ∃ w', for_each l body w = (Ok tt, w') ∧ trace w' = trace w ++ flat_map ev l ∧
          cwd w' = c ∧ args w' = args w.
Proof.
  intros Hbody. induction l as [|x l IH]; intros w Hc.
  - exists w. simpl. by rewrite app_nil_r.
  - destruct (Hbody x w Hc) as (w1 & Hrun & Htr & Hc1 & Ha1).
    destruct (IH w1 Hc1) as (w2 & Hrun2 & Htr2 & Hc2 & Ha2).
    exists w2. rewrite for_each_cons, Hrun. split; [done|].
    split; [|split; congruence]. simpl. by rewrite Htr2, Htr, app_assoc.
Qed.

Lemma relocate_run w :
  ∃ w', for_each archs (λ arch,
          for_each (support_targets ++ ["libinit-ld.so"]) (λ tgt,
            mv ["native"; "libs"; arch; tgt] ["native"; "out"; arch; tgt])) w
        = (Ok tt, w') ∧
    trace w' = trace w ++ relocations (cwd w) ∧ cwd w' = cwd w ∧ args w' = args w.
Proof.
  apply (for_each_steady archs _
           (λ arch, map (λ tgt, EMove (resolve (cwd w) ["native"; "libs"; arch; tgt])
                                      (resolve (cwd w) ["native"; "out"; arch; tgt]))
                        (support_targets ++ ["libinit-ld.so"])) (cwd w)); [|done].
  intros arch w1 Hc1.
  destruct (for_each_steady (support_targets ++ ["libinit-ld.so"])
              (λ tgt, mv ["native"; "libs"; arch; tgt] ["native"; "out"; arch; tgt])
              (λ tgt, [EMove (resolve (cwd w) ["native"; "libs"; arch; tgt])
                             (resolve (cwd w) ["native"; "out"; arch; tgt])])
              (cwd w)) with (w := w1) as (w2 & Hrun & Htr & Hc2 & Ha2); [|done|].
  - intros tgt w2 Hc2. destruct (mv_run ["native"; "libs"; arch; tgt]
                                   ["native"; "out"; arch; tgt] w2)
      as (w3 & ? & ? & ? & ?).
    exists w3. rewrite Hc2 in *. repeat split; congruence.
  - exists w2. split; [done|]. split; [|done]. by rewrite Htr.
Qed.

Lemma run_ndk_build_run E flags w :
  let c := Shell (ndk_line E flags) in
  let rc := (subprocess_run E c (resolve (cwd w) ["native"]) (fs w)).1 in
  ∃ w', run_ndk_build E flags w =
          (if bool_decide (rc = 0%Z) then Ok tt else Raise (SystemExit 1), w') ∧
    args w' = args w ∧
    if bool_decide (rc = 0%Z)
    then trace w' = trace w ++ EExec c 0 :: relocations (cwd w) ∧ cwd w' = cwd w
    else trace w' = trace w ++ [EExec c rc].
Proof.
  cbv zeta. unfold run_ndk_build.
  unfold bind at 1. unfold os_chdir at 1, modify at 1.
  unfold bind at 1. unfold system, run_process at 1. cbn [cwd fs set_cwd].
  change (path_str (ndk_build E) +:+ " " +:+ _ +:+ " -j" +:+ pretty (cpu_count E))
    with (ndk_line E flags).
  destruct (subprocess_run E (Shell (ndk_line E flags)) (resolve (cwd w) ["native"]) (fs w))
    as [rc f] eqn:Hrun. cbn [fst].
  unfold bind at 1.
  destruct (bool_decide (rc = 0%Z)) eqn:Hrc; cbn [negb].
  - apply bool_decide_eq_true in Hrc as ->.
    unfold ret at 1. unfold bind at 1. unfold os_chdir at 1, modify at 1.
    match goal with |- ∃ w', for_each _ _ ?w1 = _ ∧ _ =>
      destruct (relocate_run w1) as (w2 & -> & Htr & Hc & Ha) end.
    exists w2. cbn [cwd set_cwd emit set_fs] in *.
    rewrite resolve_down_up in * by done.
    split; [done|]. split; [done|]. split; [|done].
    rewrite Htr. cbn [trace emit set_fs set_cwd]. by rewrite <- app_assoc.
  - unfold error, raise. eexists. split; [done|]. by split.
Qed.

(** C8. [mv] always returns, and with the source absent it changes
    nothing on disk; and whatever flags an ndk-build pass was given, once
    the build has succeeded the script calls the move for every supported
    target and for libinit-ld.so, for each of the four architectures in
    turn, from [native/libs] to [native/out]. *)
Theorem relocation_best_effort (E : Env) (w : World) (source target : path)
    (flags : string) :
  (∃ w', mv source target w = (Ok tt, w') ∧
         added w w' = [EMove (resolve (cwd w) source) (resolve (cwd w) target)]) ∧
  (fs w !! resolve (cwd w) source = None →
   ∃ w', mv source target w = (Ok tt, w') ∧ fs w' = fs w) ∧
  ((subprocess_run E (Shell (ndk_line E flags)) (resolve (cwd w) ["native"]) (fs w)).1 = 0%Z →
   ∃ w', run_ndk_build E flags w = (Ok tt, w') ∧
     added w w' =
       EExec (Shell (ndk_line E flags)) 0 ::
       flat_map (λ arch,
         map (λ tgt, EMove (resolve (cwd w) ["native"; "libs"; arch; tgt])
                           (resolve (cwd w) ["native"; "out"; arch; tgt]))
             ["magisk"; "magiskinit"; "magiskboot"; "magiskpolicy"; "busybox";
              "resetprop"; "libinit-ld.so"])
         ["armeabi-v7a"; "x86"; "arm64-v8a"; "x86_64"]).
Proof.
  split; [|split].
  - destruct (mv_run source target w) as (w' & Hrun & Htr & _).
    exists w'. split; [done|]. by apply added_app.
  - intros H. rewrite (mv_missing _ _ _ H). by eexists.
  - intros Hrc. destruct (run_ndk_build_run E flags w) as (w' & Hrun & _ & Htr).
    cbv zeta in *. rewrite Hrc in *. simpl in *. destruct Htr as [Htr _].
    exists w'. split; [done|]. by apply added_app.
Qed.

Lemma relocation_best_effort_witness :
  let w := Demo.world None true in
  (∃ w', mv ["native"; "libs"; "x86"; "magisk"] ["native"; "out"; "x86"; "magisk"] w
         = (Ok tt, w') ∧ fs w' = fs w) ∧
  (∃ w', run_ndk_build Demo.env " B_PRELOAD=1" w = (Ok tt, w') ∧
         List.length (added w w') = 29).
Proof.
  intros w.
  destruct (relocation_best_effort Demo.env w
              ["native"; "libs"; "x86"; "magisk"] ["native"; "out"; "x86"; "magisk"]
              " B_PRELOAD=1") as (_ & Hmissing & Hpass).
  split.
  - apply Hmissing. reflexivity.
  - destruct Hpass as (w' & Hrun & Hadded); [reflexivity|].
    exists w'. split; [exact Hrun|]. by rewrite Hadded.
Defined.

(** ** Removal *)

Lemma set_fs_id w : set_fs (fs w) w = w.
Proof. by destruct w. Qed.

Lemma strip_prefix_spec p : ∀ k rel, strip_prefix p k = Some rel ↔ k = p ++ rel.
Proof.
  induction p as [|c p IH]; intros k rel; simpl.
  - split; congruence.
  - destruct k as [|d k]; [done|].
    destruct (decide (c = d)) as [->|Hne].
    + rewrite bool_decide_eq_true_2 by done. rewrite IH. split; congruence.
    + rewrite bool_decide_eq_false_2 by done. split; congruence.
Qed.

Lemma under_spec root m rel :
  rel ∈ under root m ↔ is_Some (m !! (root ++ rel)) ∧ ".." ∉ rel.
Proof.
  unfold under. rewrite list_elem_of_omap. split.
  - intros (k & Hk & Hrel). apply elem_of_elements, elem_of_dom in Hk.
    destruct (strip_prefix root k) as [rel'|] eqn:Hs; [|done].
    apply strip_prefix_spec in Hs as ->.
    destruct (decide (".." ∈ rel')).
    + by rewrite bool_decide_eq_true_2 in Hrel.
    + rewrite bool_decide_eq_false_2 in Hrel by done. by injection Hrel as ->.
  - intros [Hk Hrel]. exists (root ++ rel). split.
    + by apply elem_of_elements, elem_of_dom.
    + rewrite (proj2 (strip_prefix_spec root (root ++ rel) rel) eq_refl).
      by rewrite bool_decide_eq_false_2.
Qed.

(** Where nothing lies at or below a location, there is neither a file
    nor a directory. *)
Lemma under_nil_absent root m :
  under root m = [] → m !! root = None ∧ is_dir root m = false.
Proof.
  intros H. split; [|unfold is_dir; by rewrite H].
  destruct (m !! root) eqn:Hr; [|done].
  assert ([] ∈ under root m) as Hin.
  { apply under_spec. rewrite app_nil_r, Hr. split; [by eexists|]. apply not_elem_of_nil. }
  rewrite H in Hin. by apply elem_of_nil in Hin.
Qed.

(** The listing names every file once. *)
Lemma under_keys root m :
  map (λ rel, root ++ rel) (under root m) `sublist_of` elements (dom m).
Proof.
  unfold under. induction (elements (dom m)) as [|k l IH]; [done|].
  cbn [omap list_omap]. destruct (strip_prefix root k) as [rel|] eqn:Hs.
  - case_bool_decide; [by apply sublist_cons|].
    apply strip_prefix_spec in Hs as ->. cbn [map]. by apply sublist_skip.
  - by apply sublist_cons.
Qed.

Lemma NoDup_under root m : NoDup (map (λ rel, root ++ rel) (under root m)).
Proof. apply (sublist_NoDup _ (elements (dom m))); [apply NoDup_elements|apply under_keys]. Qed.

(** How [rm] ends: a file is unlinked, an absent one is passed over,
    and the refusal to unlink a read-only file or a directory is not
    caught. *)
Lemma rm_run file w :
  rm file w =
  match fs w !! resolve (cwd w) file with
  | None =>
      if is_dir (resolve (cwd w) file) (fs w)
      then (Raise IsADirectoryError, emit (ERemove (resolve (cwd w) file)) w)
      else (Ok tt, emit (ERemove (resolve (cwd w) file)) w)
  | Some (File _ true) => (Raise PermissionError, emit (ERemove (resolve (cwd w) file)) w)
  | Some (File _ false) =>
      (Ok tt, set_fs (delete (resolve (cwd w) file) (fs w))
                (emit (ERemove (resolve (cwd w) file)) w))
  end.
Proof.
  unfold rm, os_remove, try_pass, bind, get, modify, unlink_at, vprint, ret. simpl.
  destruct (fs w !! resolve (cwd w) file) as [[d []]|]; try done.
  by destruct (is_dir _ _).
Qed.

Lemma rm_absent p w :
  under (resolve (cwd w) p) (fs w) = [] →
  rm p w = (Ok tt, emit (ERemove (resolve (cwd w) p)) w).
Proof. intros [H1 H2]%under_nil_absent. by rewrite rm_run, H1, H2. Qed.

Lemma rm_on_error_absent p w :
  under (resolve (cwd w) p) (fs w) = [] → rm_on_error p w = (Ok tt, w).
Proof.
  intros [H1 H2]%under_nil_absent.
  unfold rm_on_error, try_pass, bind, os_chmod_write. by rewrite H1, H2.
Qed.

Lemma os_unlink_read_only p w d :
  fs w !! resolve (cwd w) p = Some (File d true) →
  os_unlink p w = (Raise PermissionError, w).
Proof. intros H. unfold os_unlink, bind, get, unlink_at. by rewrite H. Qed.

Lemma rm_on_error_read_only p w d :
  fs w !! resolve (cwd w) p = Some (File d true) →
  rm_on_error p w = (Ok tt, set_fs (delete (resolve (cwd w) p) (fs w)) w).
Proof.
  intros H. unfold rm_on_error, os_unlink, try_pass, bind, os_chmod_write, get, unlink_at.
  rewrite H. simpl. rewrite lookup_insert_eq. simpl.
  unfold set_fs. simpl. by rewrite delete_insert_eq.
Qed.

(** Whatever file is at [x], after the unlink and, if that failed, the
    handler, none is. *)
Lemma unlink_or_report_run x w :
  is_Some (fs w !! resolve (cwd w) x) →
  unlink_or_report rm_on_error x w =
  (Ok tt, set_fs (delete (resolve (cwd w) x) (fs w)) w).
Proof.
  intros [[d ro] H]. unfold unlink_or_report. destruct ro.
  - by rewrite (os_unlink_read_only _ _ _ H), (rm_on_error_read_only _ _ _ H).
  - unfold os_unlink, bind, get, unlink_at. by rewrite H.
Qed.

Lemma rmtree_loop p l : ∀ w,
  NoDup (map (λ rel, resolve (cwd w) (p ++ rel)) l) →
  (∀ rel, rel ∈ l → is_Some (fs w !! resolve (cwd w) (p ++ rel))) →
  for_each l (λ rel, unlink_or_report rm_on_error (p ++ rel)) w =
  (Ok tt, set_fs (foldl (λ m rel, delete (resolve (cwd w) (p ++ rel)) m) (fs w) l) w).
Proof.
  induction l as [|rel l IH]; intros w Hnd Hin.
  - simpl. by rewrite set_fs_id.
  - cbn [map] in Hnd. apply NoDup_cons in Hnd as [Hrel Hnd].
    rewrite for_each_cons, unlink_or_report_run by (apply Hin; by left).
    rewrite IH; [by destruct w|done|].
    intros r Hr. simpl. rewrite lookup_delete_ne; [apply Hin; by right|].
    intros Heq. apply Hrel. rewrite Heq.
    apply list_elem_of_In, (in_map (λ rel, resolve (cwd w) (p ++ rel))).
    by apply list_elem_of_In.
Qed.

Lemma resolve_app c p rel :
  p ≠ [] → resolve c (p ++ rel) = fold_left path_step rel (resolve c p).
Proof.
  intros Hp. destruct p as [|d p]; [done|]. unfold resolve. simpl.
  destruct (bool_decide (d = "/")); by rewrite fold_left_app.
Qed.

Lemma fold_path_plain rel : ∀ root,
  ".." ∉ rel → fold_left path_step rel root = root ++ rel.
Proof.
  induction rel as [|c rel IH]; intros root Hrel; simpl.
  - by rewrite app_nil_r.
  - apply not_elem_of_cons in Hrel as [Hc Hrel].
    unfold path_step at 2. rewrite bool_decide_eq_false_2 by done.
    rewrite IH by done. by rewrite <- app_assoc.
Qed.

Lemma resolve_under c p m rel :
  p ≠ [] → rel ∈ under (resolve c p) m → resolve c (p ++ rel) = resolve c p ++ rel.
Proof.
  intros Hp [_ Hrel]%under_spec. rewrite resolve_app by done. by apply fold_path_plain.
Qed.

(** [rm_rf] always returns: what it found under the path has been
    unlinked, read-only or not. *)
Lemma rm_rf_run p w :
  p ≠ [] →
  rm_rf p w =
  (Ok tt, set_fs (foldl (λ m rel, delete (resolve (cwd w) (p ++ rel)) m) (fs w)
                    (under (resolve (cwd w) p) (fs w)))
            (emit (ERmtree (resolve (cwd w) p)) w)).
Proof.
  intros Hp. unfold rm_rf, vprint, shutil_rmtree. unfold bind, ret, get, modify. simpl.
  destruct (under (resolve (cwd w) p) (fs w)) as [|v vs] eqn:Hu.
  - rewrite rm_on_error_absent by done.
    simpl. by rewrite <- (set_fs_id (emit _ w)) at 1.
  - change (unlink_or_report rm_on_error (p ++ v);; for_each vs ?b)
      with (for_each (v :: vs) b).
    assert (∀ rel, rel ∈ v :: vs →
              resolve (cwd w) (p ++ rel) = resolve (cwd w) p ++ rel) as Hres.
    { intros rel Hrel. apply (resolve_under _ _ (fs w)); [done|]. by rewrite Hu. }
    rewrite rmtree_loop; [done| |].
    + simpl cwd.
      rewrite (map_ext_in _ (λ rel, resolve (cwd w) p ++ rel));
        [|intros rel Hrel%list_elem_of_In; by apply Hres].
      rewrite <- Hu. apply NoDup_under.
    + intros rel Hrel. simpl. rewrite (Hres rel Hrel).
      rewrite <- Hu in Hrel. by apply under_spec in Hrel as [? _].
Qed.

Lemma rm_rf_absent p w :
  under (resolve (cwd w) p) (fs w) = [] →
  rm_rf p w = (Ok tt, emit (ERmtree (resolve (cwd w) p)) w).
Proof.
  intros H. unfold rm_rf, vprint, shutil_rmtree. unfold bind, ret, get, modify. simpl.
  rewrite H. by rewrite rm_on_error_absent.
Qed.

Lemma foldl_delete_lookup {V} (f : path → path) l : ∀ (m : gmap path V) k,
  foldl (λ m x, delete (f x) m) m l !! k =
  if bool_decide (k ∈ map f l) then None else m !! k.
Proof.
  induction l as [|x l IH]; intros m k.
  - cbn [foldl map]. case_bool_decide as H; [by apply elem_of_nil in H|done].
  - cbn [foldl map]. rewrite IH. destruct (decide (k = f x)) as [->|Hne].
    + rewrite lookup_delete_eq.
      case_bool_decide; case_bool_decide as H2; try done.
      all: exfalso; apply H2; by left.
    + rewrite lookup_delete_ne by done.
      case_bool_decide as H1; case_bool_decide as H2; try done.
      * exfalso. apply H2. by right.
      * apply elem_of_cons in H2 as [?|?]; done.
Qed.

(** After [rm_rf], nothing that was found under the path remains, and
    files elsewhere are as they were. *)
Lemma rm_rf_removes p w :
  p ≠ [] →
  let root := resolve (cwd w) p in
  (∀ rel, rel ∈ under root (fs w) → fs (rm_rf p w).2 !! (root ++ rel) = None) ∧
  (∀ k, ¬ root `prefix_of` k → fs (rm_rf p w).2 !! k = fs w !! k).
Proof.
  intros Hp root. rewrite rm_rf_run by done. simpl. fold root.
  assert (∀ rel, rel ∈ under root (fs w) → resolve (cwd w) (p ++ rel) = root ++ rel) as Hres.
  { intros rel Hrel. by apply (resolve_under _ _ (fs w)). }
  split.
  - intros rel Hrel. rewrite (foldl_delete_lookup (λ rel, resolve (cwd w) (p ++ rel))).
    rewrite bool_decide_eq_true_2; [done|].
    rewrite <- (Hres rel Hrel).
    apply list_elem_of_In, (in_map (λ rel, resolve (cwd w) (p ++ rel))).
    by apply list_elem_of_In.
  - intros k Hk. rewrite (foldl_delete_lookup (λ rel, resolve (cwd w) (p ++ rel))).
    rewrite bool_decide_eq_false_2; [done|].
    intros Hin%list_elem_of_In%in_map_iff. destruct Hin as (rel & <- & Hrel%list_elem_of_In).
    rewrite (Hres rel Hrel) in Hk. apply Hk. by exists rel.
Qed.

(** [rm_rf] away from a file leaves it as it is. *)
Lemma rm_rf_other p k w :
  p ≠ [] → ¬ resolve (cwd w) p `prefix_of` k →
  ∃ w', rm_rf p w = (Ok tt, w') ∧ cwd w' = cwd w ∧ args w' = args w ∧
        trace w' = trace w ++ [ERmtree (resolve (cwd w) p)] ∧
        fs w' !! k = fs w !! k.
Proof.
  intros Hp Hk. destruct (rm_rf_removes p w Hp) as [_ Hout].
  rewrite rm_rf_run in * by done. eexists. split; [done|]. split_and!; try done.
  by apply Hout.
Qed.

Lemma resolve_native c rel :
  ".." ∉ rel → resolve c ("native" :: rel) = resolve c ["native"] ++ rel.
Proof.
  intros Hrel. change ("native" :: rel) with (["native"] ++ rel).
  rewrite resolve_app by done. by apply fold_path_plain.
Qed.

Lemma not_prefix_native c rel1 rel2 :
  (".." ∉ rel1) → (".." ∉ rel2) → ¬ rel1 `prefix_of` rel2 →
  ¬ resolve c ("native" :: rel1) `prefix_of` resolve c ("native" :: rel2).
Proof.
  intros H1 H2 Hn. rewrite (resolve_native c rel1), (resolve_native c rel2) by done.
  intros H%prefix_app_inv. done.
Qed.

Ltac other_tree :=
  apply not_prefix_native; [set_solver|set_solver|intros [? ?]; simplify_eq/=].

(** ** Cleanup of a clean tree *)

Lemma quiet_ret {A} c (a : A) : quiet c (ret a).
Proof. intros w ? ? ?. by exists a, w. Qed.

Lemma quiet_bind {A B} c (m : M A) (k : A → M B) :
  quiet c m → (∀ a, quiet c (k a)) → quiet c (bind m k).
Proof.
  intros Hm Hk w Hc Hclean Ht.
  destruct (Hm w Hc Hclean Ht) as (a & w1 & Hrun & Hc1 & Hclean1 & Ha1).
  destruct (Hk a w1 Hc1 Hclean1) as (b & w2 & Hrun2 & Hc2 & Hclean2 & Ha2).
  { by rewrite Ha1. }
  exists b, w2. rewrite (bind_ok _ _ _ _ _ Hrun). split; [done|].
  split; [done|]. split; [done|]. congruence.
Qed.

Lemma quiet_when c b m : quiet c m → quiet c (when b m).
Proof. destruct b; [done|]. intros _. apply quiet_ret. Qed.

Lemma quiet_get_target c : quiet c get_target.
Proof.
  intros w Hc Hclean [t Ht]. exists t, w. by rewrite (get_target_some _ _ Ht).
Qed.

Lemma quiet_rm_rf c p : p ∈ cleaned_trees → quiet c (rm_rf p).
Proof.
  intros Hp w Hc Hclean _. pose proof Hclean as (Htrees & _ & _).
  rewrite Forall_forall in Htrees. specialize (Htrees p Hp).
  rewrite <- Hc in Htrees. rewrite (rm_rf_absent _ _ Htrees).
  by eexists _, _.
Qed.

Lemma quiet_rm c p : p ∈ cleaned_files → quiet c (rm p).
Proof.
  intros Hp w Hc Hclean _. pose proof Hclean as (_ & Hfiles & _).
  rewrite Forall_forall in Hfiles. specialize (Hfiles p Hp).
  rewrite <- Hc in Hfiles. rewrite (rm_absent _ _ Hfiles).
  by eexists _, _.
Qed.

Lemma quiet_glob_rm c : quiet c (do found <- glob_native_rs_pp; for_each found rm).
Proof.
  intros w Hc Hclean _. pose proof Hclean as (_ & _ & Hglob).
  unfold bind, glob_native_rs_pp. rewrite Hc, Hglob. by exists tt, w.
Qed.

Section QuietProcesses.
Context (E : Env) (c : path).
Hypothesis jdk_found : ∀ d m, (subprocess_run E (Shell "javac -version") d m).1 = 0%Z.
Hypothesis processes_keep_clean :
  ∀ x d m, clean_tree c m → clean_tree c (subprocess_run E x d m).2.

Lemma quiet_run_process x : quiet c (run_process E x).
Proof.
  intros w Hc Hclean _. unfold run_process.
  pose proof (processes_keep_clean x (cwd w) (fs w) Hclean) as Hk.
  destruct (subprocess_run E x (cwd w) (fs w)) as [rc f]. by eexists _, _.
Qed.

Lemma quiet_find_jdk : quiet c (find_jdk E).
Proof.
  intros w Hc Hclean _. unfold find_jdk, bind, run_process.
  pose proof (processes_keep_clean (Shell "javac -version") (cwd w) (fs w) Hclean) as Hk.
  pose proof (jdk_found (cwd w) (fs w)) as Hrc.
  destruct (subprocess_run E (Shell "javac -version") (cwd w) (fs w)) as [rc f].
  simpl in *. subst rc. by eexists _, _.
Qed.

Lemma quiet_cleanup_steps :
  quiet c (do t <- get_target;
           when (contains "cpp" t)
             (header "* Cleaning C++";;
              rm_rf ["native"; "libs"];;
              rm_rf ["native"; "obj"];;
              rm_rf ["native"; "out"]);;
           do t <- get_target;
           when (contains "rust" t)
             (header "* Cleaning Rust";;
              rm_rf ["native"; "src"; "target"];;
              rm ["native"; "src"; "boot"; "proto"; "mod.rs"];;
              rm ["native"; "src"; "boot"; "proto"; "update_metadata.rs"];;
              do found <- glob_native_rs_pp;
              for_each found rm);;
           do t <- get_target;
           when (contains "java" t)
             (header "* Cleaning java";;
              find_jdk E;;
              execv E [path_str (gradlew E); "app:clean"; "app:shared:clean"; "stub:clean"];;
              rm_rf ["app"; "src"; "debug"];;
              rm_rf ["app"; "src"; "release"])).
Proof.
  repeat first
    [ apply quiet_get_target
    | apply quiet_glob_rm
    | apply quiet_find_jdk
    | apply quiet_run_process
    | apply quiet_ret
    | apply quiet_when
    | apply quiet_rm_rf; unfold cleaned_trees; set_solver
    | apply quiet_rm; unfold cleaned_files; set_solver
    | apply quiet_bind; [|intros ?] ].
Qed.

Lemma cleanup_clean w :
  cwd w = c → clean_tree c (fs w) → is_Some (target (args w)) →
  ∃ w', cleanup E w = (Ok tt, w') ∧ cwd w' = c ∧ clean_tree c (fs w').
Proof.
  intros Hc Hclean [t Ht]. unfold cleanup.
  rewrite (bind_ok _ _ _ _ _ (get_target_some _ _ Ht)).
  unfold bind at 1. unfold set_target at 1, modify at 1.
  edestruct quiet_cleanup_steps as ([] & w' & Hrun & Hc' & Hclean' & _);
    [| | |exists w'; split; [exact Hrun|done]]; simpl; eauto.
Qed.
End QuietProcesses.

Lemma cleanup_unfold E w requested :
  target (args w) = Some requested →
  cleanup E w =
  cleanup_steps E
    (set_args (mkArgs (Some (TSet (cleanup_scopes requested)))
                      (release (args w)) (verbose (args w))) w).
Proof.
  intros Ht. unfold cleanup.
  rewrite (bind_ok _ _ _ _ _ (get_target_some _ _ Ht)).
  unfold bind at 1, set_target at 1, modify at 1. reflexivity.
Qed.

(** With a read-only [mod.rs], cleaning the rust scope fails and the
    file stays. *)
Lemma cleanup_read_only E w requested data :
  let generated := resolve (cwd w) ["native"; "src"; "boot"; "proto"; "mod.rs"] in
  target (args w) = Some requested → "rust" ∈ cleanup_scopes requested →
  fs w !! generated = Some (File data true) →
  ∃ w', cleanup E w = (Raise PermissionError, w') ∧
        fs w' !! generated = Some (File data true).
Proof.
  intros generated Ht Hrust Hro.
  rewrite (cleanup_unfold E w requested Ht).
  set (T := TSet (cleanup_scopes requested)).
  set (w0 := set_args _ w).
  assert (∀ w1 (k : unit → M unit),
    cwd w1 = cwd w → args w1 = args w0 → fs w1 !! generated = Some (File data true) →
    ∃ w', bind get_target (λ t, bind
       (when (contains "rust" t)
         (header "* Cleaning Rust";;
          rm_rf ["native"; "src"; "target"];;
          rm ["native"; "src"; "boot"; "proto"; "mod.rs"];;
          rm ["native"; "src"; "boot"; "proto"; "update_metadata.rs"];;
          do found <- glob_native_rs_pp;
          for_each found rm)) k) w1 = (Raise PermissionError, w') ∧
      fs w' !! generated = Some (File data true)) as Hphase.
  { intros w1 k Hc1 Ha1 Hf1.
    assert (target (args w1) = Some T) as Ht1 by by rewrite Ha1.
    rewrite (bind_ok _ _ _ _ _ (get_target_some _ _ Ht1)).
    assert (contains "rust" T = true) as -> by by apply bool_decide_eq_true_2.
    unfold when. unfold bind at 1. unfold bind at 1, header at 1, ret at 1.
    destruct (rm_rf_other ["native"; "src"; "target"] generated w1)
      as (w2 & Hrun2 & Hc2 & Ha2 & _ & Hf2); [done| |].
    { rewrite Hc1. other_tree. }
    rewrite (bind_ok _ _ _ _ _ Hrun2).
    assert (rm ["native"; "src"; "boot"; "proto"; "mod.rs"] w2 =
            (Raise PermissionError,
             emit (ERemove (resolve (cwd w2) ["native"; "src"; "boot"; "proto"; "mod.rs"])) w2))
      as Hrm.
    { rewrite rm_run, Hc2, Hc1. fold generated. by rewrite Hf2, Hf1. }
    rewrite (bind_raise _ _ _ _ _ Hrm). eexists. split; [done|]. simpl. by rewrite Hf2. }
  unfold cleanup_steps.
  assert (target (args w0) = Some T) as Ht0 by done.
  assert (cwd w0 = cwd w) as Hc0 by done.
  assert (fs w0 !! generated = Some (File data true)) as Hf0 by done.
  rewrite (bind_ok _ _ _ _ _ (get_target_some _ _ Ht0)).
  destruct (contains "cpp" T); unfold when at 1.
  - unfold bind at 1. unfold bind at 1, header at 1, ret at 1.
    destruct (rm_rf_other ["native"; "libs"] generated w0)
      as (w1 & Hrun1 & Hc1 & Ha1 & _ & Hf1); [done|rewrite Hc0; other_tree|].
    rewrite (bind_ok _ _ _ _ _ Hrun1).
    destruct (rm_rf_other ["native"; "obj"] generated w1)
      as (w2 & Hrun2 & Hc2 & Ha2 & _ & Hf2); [done| |].
    { rewrite Hc1, Hc0. other_tree. }
    rewrite (bind_ok _ _ _ _ _ Hrun2).
    destruct (rm_rf_other ["native"; "out"] generated w2)
      as (w3 & Hrun3 & Hc3 & Ha3 & _ & Hf3); [done| |].
    { rewrite Hc2, Hc1, Hc0. other_tree. }
    rewrite Hrun3. apply Hphase; congruence.
  - unfold bind at 1, ret at 1. apply Hphase; done.
Qed.




(** ** What cleanup asks for *)

Lemma performs_ret {A} c T (a : A) F : performs c T (ret a) (eq []) F.
Proof. intros w Hc Ht. exists []. simpl. by rewrite app_nil_r. Qed.

Lemma performs_weaken {A} c T (m : M A) (R R' : list event → Prop) (F F' : exn → Prop) :
  performs c T m R F → (∀ evs, R evs → R' evs) → (∀ e, F e → F' e) →
  performs c T m R' F'.
Proof.
  intros Hm HR HF w Hc Ht. destruct (Hm w Hc Ht) as (got & Htr & Hc' & Ha & Hres).
  exists got. split_and!; try done.
  destruct (m w).1 as [a|e]; [by apply HR|].
  destruct Hres as [(evs & Hevs & Hpre) He]. split; [|by apply HF].
  exists evs. split; [by apply HR|done].
Qed.

Lemma performs_bind {A B} c T (m : M A) (k : A → M B) (R1 R2 : list event → Prop) F :
  performs c T m R1 F → (∀ a, performs c T (k a) R2 F) → (∃ evs, R2 evs) →
  performs c T (bind m k) (followed_by R1 R2) F.
Proof.
  intros Hm Hk [rest Hrest] w Hc Ht.
  destruct (Hm w Hc Ht) as (got1 & Htr1 & Hc1 & Ha1 & Hres1).
  unfold bind. destruct (m w) as [[a|e] w1] eqn:Hrun; simpl in *.
  - destruct (Hk a w1 Hc1) as (got2 & Htr2 & Hc2 & Ha2 & Hres2); [by rewrite Ha1|].
    exists (got1 ++ got2). split_and!.
    + by rewrite Htr2, Htr1, app_assoc.
    + done.
    + congruence.
    + destruct (k a w1).1 as [b|e].
      * by exists got1, got2.
      * destruct Hres2 as [(evs & Hevs & Hpre) He]. split; [|done].
        exists (got1 ++ evs). split; [by exists got1, evs|]. by apply prefix_app.
  - destruct Hres1 as [(evs & Hevs & Hpre) He].
    exists got1. split_and!; try done.
    exists (evs ++ rest). split; [by exists evs, rest|]. by apply prefix_app_r.
Qed.

Lemma followed_by_inhabited (R1 R2 : list event → Prop) :
  (∃ a, R1 a) → (∃ b, R2 b) → ∃ evs, followed_by R1 R2 evs.
Proof. intros [a Ha] [b Hb]. by exists (a ++ b), a, b. Qed.

(** Some event list satisfies the description of a step. *)
Ltac plan_exists :=
  repeat first
    [ apply followed_by_inhabited
    | match goal with |- context [if ?b then _ else _] => destruct b end
    | by eexists
    | by (eexists; exists 0%Z)
    | by (eexists; exists []) ].

Lemma performs_when c T (b : bool) m R F :
  (b = true → performs c T m R F) →
  performs c T (when b m) (if b then R else eq []) F.
Proof. destruct b; simpl; [by auto|]. intros _. apply performs_ret. Qed.

Lemma performs_get_target {B} c T (k : targets → M B) R F :
  performs c T (k T) R F → performs c T (bind get_target k) R F.
Proof.
  intros Hk w Hc Ht. rewrite (bind_ok _ _ _ _ _ (get_target_some _ _ Ht)). by apply Hk.
Qed.

Lemma performs_rm_rf c T p F :
  p ≠ [] → performs c T (rm_rf p) (eq [ERmtree (resolve c p)]) F.
Proof.
  intros Hp w Hc Ht. rewrite rm_rf_run by done. subst c.
  by exists [ERmtree (resolve (cwd w) p)].
Qed.

Lemma performs_rm c T p (F : exn → Prop) :
  F PermissionError → F IsADirectoryError →
  performs c T (rm p) (eq [ERemove (resolve c p)]) F.
Proof.
  intros F1 F2 w Hc Ht. rewrite rm_run. subst c.
  exists [ERemove (resolve (cwd w) p)].
  destruct (fs w !! resolve (cwd w) p) as [[d []]|]; [| |destruct (is_dir _ _)]; simpl;
    split_and!; try done; by eexists.
Qed.

Lemma performs_for_each_rm c T (F : exn → Prop) l :
  F PermissionError → F IsADirectoryError →
  performs c T (for_each l rm) (eq (map (λ p, ERemove (resolve c p)) l)) F.
Proof.
  intros F1 F2. induction l as [|p l IH]; [apply performs_ret|].
  cbn [for_each map]. eapply performs_weaken.
  - apply performs_bind; [by apply performs_rm|intros _; apply IH|by eexists].
  - by intros evs (a & b & -> & <- & <-).
  - done.
Qed.

Lemma glob_found_shape c m p : p ∈ glob_found c m → rs_gen_path p.
Proof.
  unfold glob_found. rewrite elem_of_remove_dups.
  intros (rel & _ & Hp)%list_elem_of_In%in_flat_map.
  apply list_elem_of_In, list_elem_of_omap in Hp as (n & _ & Hn).
  destruct (rs_gen_rel (take n rel)) eqn:Hrel; [|done].
  injection Hn as <-. by exists (take n rel).
Qed.

Lemma performs_glob_rm c T (F : exn → Prop) :
  F PermissionError → F IsADirectoryError →
  performs c T (do found <- glob_native_rs_pp; for_each found rm)
    (λ evs, ∃ found, Forall rs_gen_path found ∧
                     evs = map (λ p, ERemove (resolve c p)) found) F.
Proof.
  intros F1 F2 w Hc Ht.
  change ((do found <- glob_native_rs_pp; for_each found rm) w)
    with (for_each (glob_found (cwd w) (fs w)) rm w).
  assert (Forall rs_gen_path (glob_found (cwd w) (fs w))) as Hshape.
  { apply Forall_forall. intros p. apply glob_found_shape. }
  destruct (performs_for_each_rm c T F (glob_found (cwd w) (fs w)) F1 F2 w Hc Ht)
    as (got & Htr & Hc' & Ha & Hres).
  exists got. split_and!; try done.
  destruct (for_each _ rm w).1 as [a|e].
  - by exists (glob_found (cwd w) (fs w)).
  - destruct Hres as [(evs & <- & Hpre) He]. split; [|done].
    eexists. split; [|exact Hpre]. by exists (glob_found (cwd w) (fs w)).
Qed.

Lemma performs_run_process E c T x F :
  performs c T (run_process E x) (λ evs, ∃ rc, evs = [EExec x rc]) F.
Proof.
  intros w Hc Ht. unfold run_process.
  destruct (subprocess_run E x (cwd w) (fs w)) as [rc f]. simpl.
  exists [EExec x rc]. split_and!; try done. by exists rc.
Qed.

Lemma performs_find_jdk E c T (F : exn → Prop) :
  F (SystemExit 1) →
  performs c T (find_jdk E) (λ evs, ∃ rc, evs = [EExec (Shell "javac -version") rc]) F.
Proof.
  intros HF w Hc Ht. unfold find_jdk, bind, run_process, error, raise, ret.
  destruct (subprocess_run E (Shell "javac -version") (cwd w) (fs w)) as [rc f]. simpl.
  exists [EExec (Shell "javac -version") rc].
  destruct (bool_decide (rc = 0%Z)); simpl; split_and!; try done; [by exists rc|].
  exists [EExec (Shell "javac -version") rc]. split; [by exists rc|done].
Qed.

(** The steps of [cleanup] are those of the plan of the resolved
    scopes. *)
Lemma cleanup_steps_plan E c (S : gset string) :
  performs c (TSet S) (cleanup_steps E)
    (λ evs, ∃ found javac gradle,
       Forall rs_gen_path found ∧ evs = cleanup_plan E c S found javac gradle)
    (cleanup_failure S).
Proof.
  unfold cleanup_steps. eapply performs_weaken.
  - apply performs_get_target. apply performs_bind; [..|shelve].
    + apply performs_when. intros _.
      apply performs_bind; [apply performs_ret|intros _|shelve].
      apply performs_bind; [by apply performs_rm_rf|intros _|shelve].
      apply performs_bind; [by apply performs_rm_rf|intros _|shelve].
      by apply performs_rm_rf.
    + intros _. apply performs_get_target. apply performs_bind; [..|shelve].
      * apply performs_when. intros Hrust%bool_decide_eq_true.
        assert (cleanup_failure S PermissionError) as F1 by (left; eauto).
        assert (cleanup_failure S IsADirectoryError) as F2 by (left; eauto).
        apply performs_bind; [apply performs_ret|intros _|shelve].
        apply performs_bind; [by apply performs_rm_rf|intros _|shelve].
        apply performs_bind; [by apply performs_rm|intros _|shelve].
        apply performs_bind; [by apply performs_rm|intros _|shelve].
        by apply performs_glob_rm.
      * intros _. apply performs_get_target.
        apply performs_when. intros Hjava%bool_decide_eq_true.
        assert (cleanup_failure S (SystemExit 1)) as F3 by (right; eauto).
        apply performs_bind; [apply performs_ret|intros _|shelve].
        apply performs_bind; [by apply performs_find_jdk|intros _|shelve].
        apply performs_bind; [apply performs_run_process|intros _|shelve].
        apply performs_bind; [by apply performs_rm_rf|intros _|shelve].
        by apply performs_rm_rf.
  - simpl. intros evs (a & b & -> & Ha & b1 & b2 & -> & Hb1 & Hb2).
    unfold cleanup_plan.
    assert (a = if bool_decide ("cpp" ∈ S) then cpp_plan c else []) as ->.
    { destruct (bool_decide ("cpp" ∈ S)); [|done].
      destruct Ha as (? & ? & -> & <- & ? & ? & -> & <- & ? & ? & -> & <- & <-). done. }
    assert (∃ found, Forall rs_gen_path found ∧
              b1 = if bool_decide ("rust" ∈ S) then rust_plan c found else [])
      as (found & Hfound & ->).
    { destruct (bool_decide ("rust" ∈ S)); [|by exists []].
      destruct Hb1 as (? & ? & -> & <- & ? & ? & -> & <- & ? & ? & -> & <- &
                       ? & ? & -> & <- & found & Hfound & ->).
      by exists found. }
    assert (∃ javac gradle,
              b2 = if bool_decide ("java" ∈ S) then java_plan E c javac gradle else [])
      as (javac & gradle & ->).
    { destruct (bool_decide ("java" ∈ S)); [|by exists 0%Z, 0%Z].
      destruct Hb2 as (? & ? & -> & <- & ? & ? & -> & [javac ->] & ? & ? & -> &
                       [gradle ->] & ? & ? & -> & <- & <-).
      by exists javac, gradle. }
    by exists found, javac, gradle.
  - done.
  Unshelve.
  all: plan_exists.
Qed.



(** ** Milestones of the build pipeline *)

Lemma emits_ret {A} (a : A) w : emits (ret a) w [] (cwd w).
Proof. exists []. simpl. by rewrite app_nil_r. Qed.

Lemma emits_raise {A} e w ms c : emits (@raise A e) w ms c.
Proof. exists []. simpl. rewrite app_nil_r. split; [done|]. apply prefix_nil. Qed.

(** Sequencing, when what the continuation passes may depend on the
    world it starts in: [T] says which continuations' lists are
    possible. *)
Lemma emits_bind_dep {A B} (m : M A) (k : A → M B) w ms1 c1 c2
    (T : list milestone → Prop) :
  emits m w ms1 c1 → (∃ ms, T ms) →
  (∀ a w1, m w = (Ok a, w1) → cwd w1 = c1 → args w1 = args w →
     ∃ ms2, T ms2 ∧ emits (k a) w1 ms2 c2) →
  ∃ ms2, T ms2 ∧ emits (bind m k) w (ms1 ++ ms2) c2.
Proof.
  intros (evs1 & Htr1 & Hres1) [ms0 Hms0] Hk. unfold emits, bind.
  destruct (m w) as [[a|e] w1] eqn:Hrun; simpl in *.
  - destruct Hres1 as (Hms1 & Hc1 & Ha1).
    destruct (Hk a w1 eq_refl Hc1 Ha1) as (ms2 & HT & evs2 & Htr2 & Hres2).
    exists ms2. split; [done|]. exists (evs1 ++ evs2).
    split; [by rewrite Htr2, Htr1, app_assoc|].
    rewrite milestones_app, Hms1.
    destruct (k a w1).1; [|by apply prefix_app].
    destruct Hres2 as (-> & ? & ?). split; [done|]. split; congruence.
  - exists ms0. split; [done|]. exists evs1. split; [done|]. by apply prefix_app_r.
Qed.

Lemma emits_bind {A B} (m : M A) (k : A → M B) w ms1 ms2 c1 c2 :
  emits m w ms1 c1 →
  (∀ a w1, m w = (Ok a, w1) → cwd w1 = c1 → args w1 = args w → emits (k a) w1 ms2 c2) →
  emits (bind m k) w (ms1 ++ ms2) c2.
Proof.
  intros Hm Hk.
  destruct (emits_bind_dep m k w ms1 c1 c2 (λ ms, ms = ms2) Hm) as (? & -> & H);
    [by exists ms2| |done].
  intros a w1 H1 H2 H3. exists ms2. split; [done|]. by apply Hk.
Qed.

Lemma emits_for_each {A} (l : list A) (body : A → M unit) (f : A → list milestone) :
  ∀ w,
  (∀ x w1, cwd w1 = cwd w → args w1 = args w → emits (body x) w1 (f x) (cwd w)) →
  emits (for_each l body) w (flat_map f l) (cwd w).
Proof.
  induction l as [|x l IH]; intros w Hbody.
  - apply emits_ret.
  - cbn [for_each flat_map]. apply (emits_bind _ _ _ _ _ (cwd w)); [by apply Hbody|].
    intros [] w1 _ Hc Ha. rewrite <- Hc. apply IH.
    intros y w2 Hc2 Ha2. rewrite Hc. apply Hbody; congruence.
Qed.

Lemma emits_mv source target w : emits (mv source target) w [] (cwd w).
Proof.
  destruct (mv_run source target w) as (w' & Hrun & Htr & Hc & Ha).
  eexists. rewrite Hrun. simpl. split; [exact Htr|done].
Qed.

Lemma emits_run_process E c w : emits (run_process E c) w [MExec c] (cwd w).
Proof.
  unfold emits, run_process.
  destruct (subprocess_run E c (cwd w) (fs w)) as [rc f]. simpl.
  by eexists.
Qed.

Lemma emits_write_if_diff E f text w :
  emits (write_if_diff E f text) w [MHeader (resolve (cwd w) f) text] (cwd w).
Proof.
  destruct (write_if_diff_cases E f text w) as (r & w' & Hrun & Hc & Ha & Htr & _).
  unfold emits. rewrite Hrun. simpl.
  destruct Htr as [Htr|Htr]; eexists; (split; [exact Htr|]);
    destruct r; simpl; done.
Qed.

Lemma emits_dump_flag_header E w :
  emits (dump_flag_header E) w
    [MHeader (resolve (cwd w) (native_gen_path E ++ ["flags.h"]))
             (flag_text (config E) (release (args w)))] (cwd w).
Proof.
  unfold emits. rewrite dump_flag_header_unfold. apply emits_write_if_diff.
Qed.

Lemma emits_run_ndk_build E flags w :
  emits (run_ndk_build E flags) w [MExec (Shell (ndk_line E flags))] (cwd w).
Proof.
  destruct (run_ndk_build_run E flags w) as (w' & Hrun & Ha & Htr).
  cbv zeta in *. unfold emits. rewrite Hrun. simpl.
  destruct (bool_decide _).
  - destruct Htr as [Htr Hc]. eexists. split; [exact Htr|].
    split; [|done]. simpl. unfold relocations.
    generalize (cwd w). intros c. by vm_compute.
  - eexists. split; [exact Htr|]. done.
Qed.

Lemma emits_dump_bin_header E w :
  emits (dump_bin_header E) w (map (bin_header_milestone E w) archs) (cwd w).
Proof.
  rewrite dump_bin_header_unfold.
  destruct (bin_loop E archs NoDup_archs (λ a Ha, Ha) w) as (evs & Htr & Hres).
  exists evs. split; [done|].
  destruct (for_each archs (bin_body E) w).1; [|by destruct Hres].
  by destruct Hres as (? & ? & ? & _).
Qed.

Lemma flat_map_singleton {A B} (g : A → B) l : flat_map (λ x, [g x]) l = map g l.
Proof. induction l; simpl; congruence. Qed.

Lemma flat_map_nil {A B} (l : list A) : flat_map (λ _, @nil B) l = [].
Proof. by induction l. Qed.

Lemma emits_weaken {A} (m : M A) w ms ms' c :
  emits m w ms c → ms = ms' → emits m w ms' c.
Proof. by intros H <-. Qed.

Lemma emits_cargo_step E cmds triple w :
  emits (do rc <- run_cargo E cmds triple;
         if negb (bool_decide (rc = 0%Z)) then error "Build binary failed!" else ret tt)
        w [MExec (Argv (path_str (cargo E) :: cmds))] (cwd w).
Proof.
  eapply emits_weaken.
  - eapply (emits_bind _ _ _ _ [] (cwd w)); [apply emits_run_process|].
    intros rc w1 _ <- _. destruct (negb _); [apply emits_raise|apply emits_ret].
  - done.
Qed.

Lemma cargo_cmds_updates (is_release is_verbose : bool) target rust_triple :
  let cmds := ["build"; "-p"; EmptyString] in
  let cmds := if is_release then cmds ++ ["-r"] else cmds in
  let cmds := if negb is_verbose then cmds ++ ["-q"] else cmds in
  let cmds := cmds ++ ["--target"] in
  let cmds := cmds ++ [EmptyString] in
  <[2 := target]> (<[pred (List.length cmds) := rust_triple]> cmds) =
  cargo_cmds is_release is_verbose target rust_triple.
Proof. by destruct is_release, is_verbose. Qed.

Lemma emits_run_cargo_build E w t :
  (∀ s, set_iter E s ≡ₚ elements s) →
  target (args w) = Some t →
  emits (run_cargo_build E) w
    (cargo_milestones E (args w) (set_iter E (cargo_targets t))) (cwd w).
Proof.
  intros Hiter Ht. unfold emits, run_cargo_build.
  rewrite (bind_ok _ _ _ _ _ (get_target_some _ _ Ht)).
  unfold bind at 1, get at 1.
  case_bool_decide as Hsize.
  - apply size_empty_inv, leibniz_equiv in Hsize.
    pose proof (Hiter (cargo_targets t)) as Hp.
    rewrite Hsize. rewrite Hsize, elements_empty in Hp. apply Permutation_nil_r in Hp.
    rewrite Hp. apply emits_ret.
  - apply emits_for_each. intros [arch triple] w1 Hc1 Ha1.
    rewrite <- Hc1. eapply emits_weaken.
    + eapply (emits_bind _ _ _ _ [] (cwd w1)).
      * eapply emits_weaken.
        -- apply (emits_for_each _ _
                    (λ tgt, [MExec (Argv (path_str (cargo E) ::
                               cargo_cmds (release (args w)) (verbose (args w)) tgt
                                 (rust_triple_of triple)))])).
           intros tgt w2 Hc2 Ha2. rewrite <- Hc2.
           rewrite (cargo_cmds_updates (release (args w)) (verbose (args w))).
           apply emits_cargo_step.
        -- apply flat_map_singleton.
      * intros [] w2 _ Hc2 Ha2. rewrite <- Hc2.
        eapply emits_weaken.
        -- apply (emits_for_each _ _ (λ _, [])).
           intros tgt w3 Hc3 Ha3. rewrite <- Hc3. apply emits_mv.
        -- apply flat_map_nil.
    + by rewrite app_nil_r.
Qed.

(** ** The pipeline for magiskinit *)

Lemma verify_ndk_run E w : ∃ r, verify_ndk E w = (r, w).
Proof.
  unfold verify_ndk, try_except, read_text, bind, read_file, error, raise, ret.
  destruct (fs w !! _) as [f|]; simpl; [|by eexists].
  destruct (ondkVersion (config E)) as [v|]; simpl; [|by eexists].
  destruct (String.eqb _ _); by eexists.
Qed.

Lemma select_magiskinit :
  select_targets (TList ["magiskinit"]) = (TSet {[ "magiskinit" ]}, false).
Proof. by vm_compute. Qed.

Lemma contains_magiskinit x :
  contains x (TSet {[ "magiskinit" ]}) = bool_decide (x = "magiskinit").
Proof. unfold contains. apply bool_decide_ext. set_solver. Qed.

Lemma resolve_src_back c : resolve (resolve c ["native"; "src"]) [".."; ".."] = c.
Proof.
  unfold resolve. simpl. unfold path_step. simpl.
  by rewrite !removelast_last.
Qed.

Lemma build_binary_magiskinit E w r v :
  verify_ndk E w = (Ok tt, w) →
  args w = mkArgs (Some (TList ["magiskinit"])) r v →
  build_binary E w =
  (run_cargo_build E;; os_chdir [".."; ".."];; dump_flag_header E;;
   run_ndk_build E " B_PRELOAD=1";; dump_bin_header E;;
   run_ndk_build E " B_INIT=1 B_CRT0=1";; ret tt;; ret tt)
    (set_cwd (resolve (cwd w) ["native"; "src"])
       (set_args (mkArgs (Some (TSet {[ "magiskinit" ]})) r v) w)).
Proof.
  intros Hndk Hargs. unfold build_binary.
  rewrite (bind_ok _ _ _ _ _ Hndk).
  assert (target (args w) = Some (TList ["magiskinit"])) as Ht by by rewrite Hargs.
  unfold bind at 1, get at 1. rewrite Ht.
  rewrite bool_decide_eq_false_2 by done.
  unfold bind at 1, ret at 1.
  rewrite (bind_ok _ _ _ _ _ (get_target_some _ _ Ht)).
  rewrite select_magiskinit. cbv iota beta.
  unfold bind at 1, set_target at 1, modify at 1.
  unfold bind at 1, header at 1, ret at 1.
  unfold bind at 1, os_chdir at 1, modify at 1.
  rewrite !contains_magiskinit. rewrite Hargs.
  reflexivity.
Qed.

Lemma emits_bind_T {A B} (m : M A) (k : A → M B) w ms1 c1 c2
    (T : list milestone → Prop) :
  emits m w ms1 c1 → (∃ ms, T (ms1 ++ ms)) →
  (∀ a w1, m w = (Ok a, w1) → cwd w1 = c1 → args w1 = args w →
     ∃ ms2, T (ms1 ++ ms2) ∧ emits (k a) w1 ms2 c2) →
  ∃ ms, T ms ∧ emits (bind m k) w ms c2.
Proof.
  intros Hm Hinh Hk.
  destruct (emits_bind_dep m k w ms1 c1 c2 (λ ms2, T (ms1 ++ ms2)) Hm Hinh Hk)
    as (ms2 & HT & H).
  by exists (ms1 ++ ms2).
Qed.

Lemma emits_os_chdir p w : emits (os_chdir p) w [] (resolve (cwd w) p).
Proof. exists []. simpl. by rewrite app_nil_r. Qed.

Lemma added_self w : added w w = [].
Proof. unfold added. apply drop_all. Qed.

Lemma set_iter_singleton E x :
  (∀ s, set_iter E s ≡ₚ elements s) → set_iter E {[ x ]} = [x].
Proof.
  intros Hiter. pose proof (Hiter {[ x ]}) as Hp.
  rewrite elements_singleton in Hp. by apply Permutation_singleton_r in Hp.
Qed.

Lemma cargo_targets_magiskinit : cargo_targets (TSet {[ "magiskinit" ]}) = {[ "magiskinit" ]}.
Proof. by vm_compute. Qed.

Lemma magiskinit_tail_emits E w r v :
  (∀ s, set_iter E s ≡ₚ elements s) →
  args w = mkArgs (Some (TSet {[ "magiskinit" ]})) r v →
  ∀ c, resolve (cwd w) [".."; ".."] = c →
  ∃ ms,
    (∃ datas, List.length datas = 4 ∧
       ms = cargo_milestones E (args w) ["magiskinit"] ++
            [] ++
            [MHeader (resolve c (native_gen_path E ++ ["flags.h"]))
                     (flag_text (config E) r)] ++
            [MExec (Shell (ndk_line E " B_PRELOAD=1"))] ++
            (zip_with (λ arch d,
                 MHeader (resolve c (bin_header_path E arch))
                         (binary_dump d "init_ld_xz" (xz E))) archs datas ++
             [MExec (Shell (ndk_line E " B_INIT=1 B_CRT0=1"))])) ∧
    emits (run_cargo_build E;; os_chdir [".."; ".."];; dump_flag_header E;;
           run_ndk_build E " B_PRELOAD=1";; dump_bin_header E;;
           run_ndk_build E " B_INIT=1 B_CRT0=1";; ret tt;; ret tt) w ms c.
Proof.
  intros Hiter Hargs c Hc.
  assert (target (args w) = Some (TSet {[ "magiskinit" ]})) as Ht by by rewrite Hargs.
  pose proof (emits_run_cargo_build E w _ Hiter Ht) as Hcargo.
  rewrite cargo_targets_magiskinit, (set_iter_singleton E _ Hiter) in Hcargo.
  eapply (emits_bind_T _ _ _ _ (cwd w) c); [exact Hcargo| |].
  { eexists. exists (replicate 4 EmptyString). split; [done|]. reflexivity. }
  intros [] w1 _ Hc1 Ha1.
  eapply (emits_bind_T _ _ _ [] c c (λ ms, ∃ datas, _ ∧ _ ++ ms = _)).
  { rewrite <- Hc, <- Hc1. apply emits_os_chdir. }
  { eexists. exists (replicate 4 EmptyString). split; [done|]. reflexivity. }
  intros [] w2 _ Hc2 Ha2.
  eapply (emits_bind_T _ _ _ _ c c (λ ms, ∃ datas, _ ∧ _ ++ _ ++ ms = _)).
  { rewrite <- Hc2. eapply emits_weaken; [apply emits_dump_flag_header|].
    by rewrite Hc2, Ha2, Ha1, Hargs. }
  { eexists. exists (replicate 4 EmptyString). split; [done|]. reflexivity. }
  intros [] w3 _ Hc3 Ha3.
  eapply (emits_bind_T _ _ _ _ c c (λ ms, ∃ datas, _ ∧ _ ++ _ ++ _ ++ ms = _)).
  { rewrite <- Hc3. apply emits_run_ndk_build. }
  { eexists. exists (replicate 4 EmptyString). split; [done|]. reflexivity. }
  intros [] w4 _ Hc4 Ha4.
  exists (map (bin_header_milestone E w4) archs ++
          [MExec (Shell (ndk_line E " B_INIT=1 B_CRT0=1"))] ++ [] ++ []).
  split.
  - exists (map (so_data w4) archs). split; [done|].
    unfold bin_header_milestone. by rewrite Hc4.
  - eapply (emits_bind _ _ _ _ _ c).
    { rewrite <- Hc4. apply emits_dump_bin_header. }
    intros [] w5 _ Hc5 Ha5. eapply (emits_bind _ _ _ _ _ c).
    { rewrite <- Hc5. apply emits_run_ndk_build. }
    intros [] w6 _ Hc6 Ha6. eapply (emits_bind _ _ _ _ _ c).
    { rewrite <- Hc6. apply emits_ret. }
    intros [] w7 _ Hc7 Ha7. rewrite <- Hc7. apply emits_ret.
Qed.

Lemma forallb_prefix {A} (p : A → bool) (l full : list A) :
  l `prefix_of` full → forallb p full = true → forallb p l = true.
Proof. intros [k ->]. rewrite forallb_app. by intros [? _]%andb_prop. Qed.

(** C3, as the code has it.  A release build of magiskinit alone passes,
    in this order: cargo for magiskinit itself, once per architecture;
    the flags header, with MAGISK_DEBUG 0; the ndk-build pass with
    B_PRELOAD=1 alone; the payload header of each of the four
    architectures; the ndk-build pass with B_INIT=1 and B_CRT0=1.  A run
    that fails has passed an initial segment of that list, so the
    embedding pass never precedes the payload headers, and the ELF
    cleaner is never started. *)
Theorem magiskinit_release_pipeline (E : Env) (w : World) (v : bool) :
  (∀ s, set_iter E s ≡ₚ elements s) →
  args w = mkArgs (Some (TList ["magiskinit"])) true v →
  ∃ datas, List.length datas = 4 ∧
    milestones (added w (build_binary E w).2)
      `prefix_of` magiskinit_release_milestones E (cwd w) v datas ∧
    match (build_binary E w).1 with
    | Ok _ => milestones (added w (build_binary E w).2) =
              magiskinit_release_milestones E (cwd w) v datas
    | Raise _ => True
    end ∧
    forallb (λ m, negb (is_clean_elf m)) (milestones (added w (build_binary E w).2)) = true.
Proof.
  intros Hiter Hargs. destruct (verify_ndk_run E w) as [[[]|e] Hndk].
  - rewrite (build_binary_magiskinit E w true v Hndk Hargs).
    match goal with |- context [?tail (set_cwd ?c2 ?w1)] =>
      destruct (magiskinit_tail_emits E (set_cwd c2 w1) true v Hiter eq_refl (cwd w))
        as (ms & (datas & Hlen & Hms) & evs & Htr & Hres);
      [apply resolve_src_back|];
      set (out := tail (set_cwd c2 w1)) in * end.
    assert (added w out.2 = evs) as Hadded by (by apply added_app).
    assert (ms = magiskinit_release_milestones E (cwd w) v datas) as Hexp.
    { rewrite Hms. unfold magiskinit_release_milestones. cbv zeta.
      rewrite flag_text_lines. reflexivity. }
    exists datas. split; [done|]. rewrite Hadded, <- Hexp.
    assert (milestones evs `prefix_of` ms) as Hpre.
    { destruct out.1; [by destruct Hres as [-> _]|done]. }
    split; [done|]. split.
    + destruct out.1; [by destruct Hres|done].
    + apply (forallb_prefix _ _ ms Hpre). rewrite Hexp.
      destruct datas as [|d1 [|d2 [|d3 [|d4 [|]]]]]; try done.
  - unfold build_binary. rewrite (bind_raise _ _ _ _ _ Hndk). simpl.
    exists (replicate 4 EmptyString). rewrite added_self. simpl.
    split; [done|]. split; [apply prefix_nil|done].
Qed.

Lemma magiskinit_release_pipeline_witness :
  let w := Demo.world (Some (TList ["magiskinit"])) true in
  (build_binary Demo.env w).1 = Ok tt ∧
  ∃ datas,
    milestones (added w (build_binary Demo.env w).2) =
    magiskinit_release_milestones Demo.env (cwd w) false datas.
Proof.
  intros w. split; [by vm_compute|].
  destruct (magiskinit_release_pipeline Demo.env w false)
    as (datas & _ & _ & Hok & _); [done|reflexivity|].
  exists datas. by replace (build_binary Demo.env w).1 with (@Ok unit tt) in Hok
    by (by vm_compute).
Defined.

Lemma in_order_spec l2 : ∀ l1, in_order l1 l2 = true ↔ l1 `sublist_of` l2.
Proof.
  induction l2 as [|y l2 IH]; intros [|x l1]; simpl.
  - split; [constructor|done].
  - rewrite sublist_nil_r. split; done.
  - split; [intros; apply sublist_nil_l|done].
  - rewrite sublist_cons_r. case_bool_decide as Hxy.
    + subst y. rewrite IH. split; [by eauto|].
      intros [H|(l' & [= <-] & H)]; [|done].
      apply sublist_cons_l in H as (k1 & k2 & -> & H2).
      apply (sublist_app [] k1 l1 (x :: k2)); [apply sublist_nil_l|by constructor].
    + rewrite IH. split; [by left|]. intros [H|(l' & Heq & H)]; [done|].
      injection Heq as Hx _. by subst.
Qed.

(** C3, as stated, fails: in a run that completes, the flags header is
    not generated after the B_PRELOAD=1 pass (it precedes it), and cargo
    is never asked for magisk. *)
Lemma flags_header_precedes_preload_pass :
  let w := Demo.world (Some (TList ["magiskinit"])) true in
  let passed := milestones (trace (build_binary Demo.env w).2) in
  let preload_pass := MExec (Shell (ndk_line Demo.env " B_PRELOAD=1")) in
  let flags_header :=
    MHeader ["/"; "repo"; "native"; "out"; "generated"; "flags.h"]
            (flag_text (config Demo.env) true) in
  (build_binary Demo.env w).1 = Ok tt ∧
  ¬ [preload_pass; flags_header] `sublist_of` passed ∧
  [flags_header; preload_pass] `sublist_of` passed ∧
  Forall (λ m, ∀ argv, m = MExec (Argv argv) → argv !! 3 = Some "magiskinit") passed.
Proof.
  cbv zeta. split; [by vm_compute|]. split; [|split].
  - intros H%in_order_spec. by vm_compute in H.
  - apply in_order_spec. by vm_compute.
  - replace (milestones _) with
      (magiskinit_release_milestones Demo.env ["/"; "repo"] false
         ["ELF-armeabi-v7a"; "ELF-x86"; "ELF-arm64-v8a"; "ELF-x86_64"])
      by (by vm_compute).
    repeat constructor; by intros ? [= <-].
Qed.

(** ** The dependency of resetprop *)

Lemma cargo_milestones_mem E a iter tgt arch triple :
  tgt ∈ iter → (arch, triple) ∈ zip archs triples →
  MExec (Argv (path_str (cargo E) ::
                 cargo_cmds (release a) (verbose a) tgt (rust_triple_of triple)))
  ∈ cargo_milestones E a iter.
Proof.
  intros Htgt Hpair. unfold cargo_milestones.
  apply list_elem_of_In, in_flat_map. exists (arch, triple).
  split; [by apply list_elem_of_In|].
  apply (in_map (λ tgt, MExec (Argv (path_str (cargo E) ::
                   cargo_cmds (release a) (verbose a) tgt (rust_triple_of triple))))).
  by apply list_elem_of_In.
Qed.

(** C2, as the code has it.  A resolved set that contains resetprop makes
    cargo build magisk: magisk is in the set handed to cargo, and a
    [run_cargo_build] that returns has run cargo for magisk on each of
    the four triples.  For resetprop alone [args.target] is exactly
    resetprop and the set handed to cargo is exactly magisk. *)
Theorem derived_target_dependency (E : Env) (w : World) (t : targets) :
  (contains "resetprop" t = true → "magisk" ∈ cargo_targets t) ∧
  (contains "resetprop" t = true →
   (∀ s, set_iter E s ≡ₚ elements s) → target (args w) = Some t →
   emits (run_cargo_build E) w
     (cargo_milestones E (args w) (set_iter E (cargo_targets t))) (cwd w) ∧
   Forall (λ triple,
       MExec (Argv (path_str (cargo E) ::
                      cargo_cmds (release (args w)) (verbose (args w)) "magisk" triple))
       ∈ cargo_milestones E (args w) (set_iter E (cargo_targets t)))
     ["thumbv7neon-linux-androideabi"; "i686-linux-android";
      "aarch64-linux-android"; "x86_64-linux-android"]) ∧
  select_targets (TList ["resetprop"]) = (TSet {[ "resetprop" ]}, false) ∧
  cargo_targets (TSet {[ "resetprop" ]}) = {[ "magisk" ]}.
Proof.
  assert (contains "resetprop" t = true → "magisk" ∈ cargo_targets t) as Hin.
  { intros H. unfold cargo_targets. rewrite H. set_solver. }
  split; [done|]. split; [|split; by vm_compute].
  intros Hc Hiter Ht. split; [by apply emits_run_cargo_build|].
  assert ("magisk" ∈ set_iter E (cargo_targets t)) as Hm.
  { rewrite (Hiter (cargo_targets t)). apply elem_of_elements. by apply Hin. }
  repeat constructor.
  - apply (cargo_milestones_mem E _ _ _ "armeabi-v7a" "armv7a-linux-androideabi" Hm).
    set_solver.
  - apply (cargo_milestones_mem E _ _ _ "x86" "i686-linux-android" Hm). set_solver.
  - apply (cargo_milestones_mem E _ _ _ "arm64-v8a" "aarch64-linux-android" Hm).
    set_solver.
  - apply (cargo_milestones_mem E _ _ _ "x86_64" "x86_64-linux-android" Hm). set_solver.
Qed.

Lemma derived_target_dependency_witness :
  "magisk" ∈ cargo_targets (TList ["resetprop"; "busybox"]) ∧
  emits (run_cargo_build Demo.env) (Demo.world (Some (TList ["resetprop"; "busybox"])) true)
    (cargo_milestones Demo.env (mkArgs (Some (TList ["resetprop"; "busybox"])) true false)
       (elements (cargo_targets (TList ["resetprop"; "busybox"])))) ["/"; "repo"].
Proof.
  destruct (derived_target_dependency Demo.env
              (Demo.world (Some (TList ["resetprop"; "busybox"])) true)
              (TList ["resetprop"; "busybox"])) as (H1 & H2 & _).
  split; [by apply H1|]. by apply H2.
Defined.

(** C2, as stated, fails for resetprop alone: magisk is not in the
    resolved [args.target], and resetprop is not in the set handed to
    cargo, so no set of the code holds both. *)
Lemma resetprop_alone_no_joint_set :
  let t := (select_targets (TList ["resetprop"])).1 in
  ¬ ("resetprop" ∈ to_set t ∧ "magisk" ∈ to_set t) ∧
  ¬ ("resetprop" ∈ cargo_targets t ∧ "magisk" ∈ cargo_targets t).
Proof.
  cbv zeta.
  replace (select_targets (TList ["resetprop"])) with
    (TSet ({[ "resetprop" ]} : gset string), false) by (by vm_compute).
  replace (cargo_targets _) with ({[ "magisk" ]} : gset string) by (by vm_compute).
  simpl. split; intros [H1 H2]; set_solver.
Qed.
